(** * MyoLinux GATT client: a shallow embedding of [src/gattclient.cpp]

    The driver of [gattclient.cpp] turns command writes and event reads on a
    BLED112 dongle into synchronous operations.  Each member function of
    [GattClient] is embedded below under its own name, as a function on an
    explicit driver state; exceptions are values of [exn] and leave the
    state as mutated so far, as a C++ [throw] does. *)

From Stdlib Require Import ZArith Ascii String Strings.Byte.
From stdpp Require Import base decidable countable list strings gmap.

Open Scope Z_scope.

(** ** Bytes, buffers and addresses *)

(** [std::uint8_t] is [Byte.byte]; [Buffer] is [std::vector<std::uint8_t>]
    and [GattClient::Address] is [std::array<std::uint8_t, 6>]. *)

#[global] Instance byte_eq_dec : EqDecision byte := Byte.byte_eq_dec.
#[global] Instance byte_inhabited : Inhabited byte := populate x00.
#[global] Instance byte_countable : Countable byte :=
  inj_countable' Ascii.ascii_of_byte Ascii.byte_of_ascii Ascii.byte_of_ascii_of_byte.

Definition Buffer : Type := list byte.
Definition Address : Type := list byte.

(** An address value is well formed when it has the six elements of the
    array type. *)
Definition valid_address (a : Address) : Prop := length a = 6%nat.

(** [static_cast<std::uint8_t>(v)] for an [int] [v]: reduction modulo 256. *)
Definition uint8_of_int (v : Z) : byte :=
  default x00 (Byte.of_N (Z.to_N (v mod 256))).

(** [static_cast<int>(b)] for a [std::uint8_t] [b]. *)
Definition int_of_uint8 (b : byte) : Z := Z.of_N (Byte.to_N b).

(** ** Exceptions and results *)

(** The code throws [std::runtime_error] and [std::logic_error]; whatever
    the transport throws is kept apart as [transport_error]. *)
Inductive exn : Type :=
| runtime_error (what : string)
| logic_error (what : string)
| transport_error (what : string).

Inductive result (A : Type) : Type :=
| OK (a : A)
| Raise (e : exn).
Arguments OK {A} a.
Arguments Raise {A} e.

(** ** Text streams *)

(** The indices visited by [for (std::size_t i = n; i-- != 0; )]. *)
Definition countdown (n : nat) : list nat := rev (seq 0 n).

Module Stream.

(** [std::isspace] in the classic locale. *)
Definition isspace (c : ascii) : bool :=
  let n := Ascii.N_of_ascii c in
  ((n =? 32) || ((9 <=? n) && (n <=? 13)))%N.

(** The value of a hexadecimal digit, in either case. *)
Definition hex_digit (c : ascii) : option Z :=
  let n := Z.of_N (Ascii.N_of_ascii c) in
  if (48 <=? n) && (n <=? 57) then Some (n - 48)
  else if (97 <=? n) && (n <=? 102) then Some (n - 87)
  else if (65 <=? n) && (n <=? 70) then Some (n - 55)
  else None.

(** The lowercase digit that [std::hex] prints for [n < 16]. *)
Definition hex_char (n : N) : ascii :=
  Ascii.ascii_of_N (if (n <? 10)%N then n + 48 else n + 87).

(** *** Output: [std::cout << std::hex << std::setw(2) << v]

    for [v = static_cast<int>(b)] with [b] a byte, so one or two digits;
    [std::setw(2)] pads a single digit on the left with the stream's fill
    character.  The function never sets the fill character: it is the one
    [std::cout] carries when [print_address] is entered. *)
Definition put_hex_w2 (fill : ascii) (b : byte) : string :=
  let n := Byte.to_N b in
  if (n <? 16)%N then String fill (String (hex_char n) "")
  else String (hex_char (n / 16)) (String (hex_char (n mod 16)) "").


(** [std::endl] writes a line feed. *)
Definition endl : string := String (Ascii.ascii_of_N 10) "".

(** *** Input: a [std::istringstream]

    What is left to read, and [failbit].  ([eofbit] is set exactly when
    a read has run into the end of [buf], and then [buf] is empty; an
    extraction on an empty [buf] fails in either case.) *)
Record istringstream : Type := { buf : string; failbit : bool }.

Definition open (str : string) : istringstream :=
  {| buf := str; failbit := false |}.

Definition failed (rest : string) : istringstream :=
  {| buf := rest; failbit := true |}.

Fixpoint skipws (s : string) : string :=
  match s with
  | String c s' => if isspace c then skipws s' else s
  | EmptyString => EmptyString
  end.

(** The longest run of hexadecimal digits at the head of [s]. *)
Fixpoint take_hex (s : string) : list Z * string :=
  match s with
  | String c s' =>
      match hex_digit c with
      | Some d => let '(ds, r) := take_hex s' in (d :: ds, r)
      | None => ([], s)
      end
  | EmptyString => ([], EmptyString)
  end.

Definition hex_value (ds : list Z) : Z :=
  fold_left (fun acc d => 16 * acc + d) ds 0.

Definition take_sign (s : string) : bool * string :=
  match s with
  | String "-"%char s' => (true, s')
  | String "+"%char s' => (false, s')
  | _ => (false, s)
  end.

Definition strip_0x (s : string) : string :=
  match s with
  | String "0"%char (String "x"%char s') => s'
  | String "0"%char (String "X"%char s') => s'
  | _ => s
  end.

Definition INT_MAX : Z := 2147483647.
Definition INT_MIN : Z := -2147483648.

(** [ss >> std::hex >> value] for [int value], given what [value] held
    before.  A stream that has failed, or that ends after the white space,
    leaves [value] alone; a field without digits stores 0 and sets
    [failbit]; a field outside [int] stores the nearest bound and sets
    [failbit] (the rules of [std::num_get] since C++11). *)
Definition extract_hex (ss : istringstream) (value : Z) : istringstream * Z :=
  if failbit ss then (ss, value)
  else
    match skipws (buf ss) with
    | EmptyString => (failed "", value)
    | s =>
        let '(neg, s1) := take_sign s in
        let '(ds, r) := take_hex (strip_0x s1) in
        match ds with
        | [] => (failed r, 0)
        | _ =>
            let v := if neg : bool then - hex_value ds else hex_value ds in
            if INT_MAX <? v then (failed r, INT_MAX)
            else if v <? INT_MIN then (failed r, INT_MIN)
            else ({| buf := r; failbit := false |}, v)
        end
    end.

(** [ss >> delimiter] for [char delimiter], given what [delimiter] held
    before: the next character after the white space, or, when there is
    none or the stream has failed, [failbit] and [delimiter] as it was. *)
Definition extract_char (ss : istringstream) (delimiter : ascii)
  : istringstream * ascii :=
  if failbit ss then (ss, delimiter)
  else
    match skipws (buf ss) with
    | EmptyString => (failed "", delimiter)
    | String c r => ({| buf := r; failbit := false |}, c)
    end.

End Stream.

(** ** [print_address] (lines 14-27)

    The characters written to [std::cout]: the bytes from index 5 down to
    0, each through [std::hex << std::setw(2)], a colon after each but the
    last, then [std::endl]. *)
Fixpoint print_bytes (fill : ascii) (address : Address) (idx : list nat) : string :=
  match idx with
  | [] => ""
  | i :: idx' =>
      Stream.put_hex_w2 fill (address !!! i)
      +:+ (if bool_decide (i ≠ 0%nat) then ":" else "")
      +:+ print_bytes fill address idx'
  end.

Definition print_address (fill : ascii) (address : Address) : string :=
  print_bytes fill address (countdown (length address)) +:+ Stream.endl.

(** ** [GattClient::connect(const std::string &)], the parsing loop
    (lines 96-110)

    [int value] and [char delimiter] are declared without an initialiser in
    every round of the loop, and an extraction that fails does not assign
    them.  [Stale] is the content of the two variables.  The language
    leaves open what they hold when a round is entered: a [Build] gives
    it, for round [i], from what the round before left in them (for the
    first round, from what was in their place before the loop).  A
    compiled program keeps each variable in one place for the whole loop,
    so that a round finds what the round before left: that is [reused].
    [Address address] starts out uninitialised too, but each of its
    elements is assigned before the array is read. *)
Record Stale : Type := { stale_value : Z; stale_delimiter : ascii }.

Definition Build : Type := nat → Stale → Stale.

Definition reused : Build := λ _ left, left.

Fixpoint parse_groups (build : Build) (idx : list nat)
    (ss : Stream.istringstream) (address : Address) (left : Stale)
  : result Address :=
  match idx with
  | [] => OK address
  | i :: idx' =>
      let entry := build i left in
      let '(ss1, value) := Stream.extract_hex ss (stale_value entry) in
      let address' := <[i := uint8_of_int value]> address in
      let '(ss2, delimiter) := Stream.extract_char ss1 (stale_delimiter entry) in
      if bool_decide (delimiter ≠ ":"%char)
      then Raise (runtime_error "Unexpected delimiter")
      else parse_groups build idx' ss2 address'
             {| stale_value := value; stale_delimiter := delimiter |}
  end.

Definition parse_address (build : Build) (before : Stale) (str : string)
  : result Address :=
  parse_groups build (countdown 6) (Stream.open str) (replicate 6 x00) before.

(** ** The protocol: commands and messages

    The structures of the BGAPI protocol are declared in the [bled112]
    headers, which are not under [src/].  A command is given with the
    fields that [gattclient.cpp] sets, in the order of its initialisers; a
    message with the fields that [gattclient.cpp] reads, and with the
    payload that follows the structure where there is one. *)

Inductive GapDiscoverModeEnum : Type := DiscoverGeneric.
Inductive GapAddressTypeEnum : Type := AddressTypePublic.

Inductive Command : Type :=
| GapDiscover (mode : GapDiscoverModeEnum)
| GapEndProcedure
| ConnectionGetStatus (connection : Z)
| GapConnectDirect (address : Address) (addr_type : GapAddressTypeEnum)
    (conn_interval_min conn_interval_max timeout latency : Z)
| ConnectionDisconnect (connection : Z)
| AttclientAttributeWrite (connection atthandle length : Z) (payload : Buffer)
| AttclientReadByHandle (connection chrhandle : Z)
| AttclientFindInformation (connection first last : Z).

Inductive Message : Type :=
| GapDiscoverResponse
| GapScanResponseEvent (rssi : Z) (sender : Address) (data : Buffer)
| GapEndProcedureResponse
| ConnectionGetStatusResponse
| ConnectionStatusEvent (flags : Z) (address : Address)
| GapConnectDirectResponse (connection_handle : Z)
| ConnectionDisconnectResponse
| ConnectionDisconnectedEvent
| AttclientAttributeWriteResponse
| AttclientProcedureCompletedEvent
| AttclientReadByHandleResponse
| AttclientAttributeValueEvent (atthandle length : Z) (data : Buffer)
| AttclientFindInformationResponse
| AttclientFindInformationFoundEvent (chrhandle length : Z) (uuid : Buffer).

#[global] Instance Message_eq_dec : EqDecision Message.
Proof. solve_decision. Defined.

(** Modelled from the spec: [ConnectionConnstatusEnum::Connected] (the
    enumeration is declared in the [bled112] headers, not under [src/]),
    the flag by which "a slot reports [Connected]"; in the BGAPI protocol
    it is bit 0 of the status flags. *)
Definition Connected : Z := 1.

(** The type argument [T] of [read<T>]: the messages of that type, seen
    through the fields the driver uses. *)
Definition View (T : Type) : Type := Message → option T.

(** A message without fields that the driver reads. *)
Definition plain (m0 : Message) : View unit :=
  λ m, if decide (m = m0) then Some tt else None.

(** What the driver reads of a [ConnectionStatusEvent]. *)
Module Status.
Record t : Type := make { flags : Z; address : Address }.
End Status.

Definition status_event : View Status.t :=
  λ m, match m with
       | ConnectionStatusEvent f a => Some (Status.make f a)
       | _ => None
       end.

Definition connect_direct_response : View Z :=
  λ m, match m with GapConnectDirectResponse h => Some h | _ => None end.

(** ** The transport, [Bled112Client] *)

(** Modelled from the spec: [Bled112Client] (the [bled112client] sources
    are not under [src/]) is the transport of section 6, as the test double
    that section 9 asks for: it replays the decoded messages [incoming] in
    order and logs each command in [sent].  A read with nothing left to
    replay fails, as a transport whose read times out; [writable] is the
    number of commands the link still accepts before a write fails. *)
Record Bled112Client : Type :=
  { incoming : list Message; sent : list Command; writable : nat }.

Definition no_message : exn := transport_error "no message".
Definition unexpected_message : exn := transport_error "unexpected message".
Definition link_down : exn := transport_error "link down".

(** Modelled from the spec: [client.write(command)], "serializes and sends
    one protocol command; failure is an external transport error". *)
Definition Bled112Client_write (command : Command) (c : Bled112Client)
  : result unit * Bled112Client :=
  match writable c with
  | O => (Raise link_down, c)
  | S n => (OK tt, {| incoming := incoming c; sent := sent c ++ [command];
                      writable := n |})
  end.

(** ** The driver state, [GattClient] *)

(** [Event] is the element type of [event_queue]: an attribute handle and
    the bytes that came with it. *)
Definition Event : Type := Z * Buffer.

Record GattClient : Type :=
  { client : Bled112Client;
    connected_ : bool;
    address_ : Address;
    connection : Z;
    event_queue : list Event }.

Definition with_client (c : Bled112Client) (g : GattClient) : GattClient :=
  {| client := c; connected_ := connected_ g; address_ := address_ g;
     connection := connection g; event_queue := event_queue g |}.

Definition with_incoming (msgs : list Message) (g : GattClient) : GattClient :=
  with_client {| incoming := msgs; sent := sent (client g);
                 writable := writable (client g) |} g.

Definition with_connected (b : bool) (g : GattClient) : GattClient :=
  {| client := client g; connected_ := b; address_ := address_ g;
     connection := connection g; event_queue := event_queue g |}.

Definition with_address (a : Address) (g : GattClient) : GattClient :=
  {| client := client g; connected_ := connected_ g; address_ := a;
     connection := connection g; event_queue := event_queue g |}.

Definition with_connection (i : Z) (g : GattClient) : GattClient :=
  {| client := client g; connected_ := connected_ g; address_ := address_ g;
     connection := i; event_queue := event_queue g |}.

Definition with_event_queue (q : list Event) (g : GattClient) : GattClient :=
  {| client := client g; connected_ := connected_ g; address_ := address_ g;
     connection := connection g; event_queue := q |}.

(** ** Member functions as state transformers that may throw *)

Definition M (A : Type) : Type := GattClient → result A * GattClient.

#[global] Instance M_ret : MRet M := λ A a g, (OK a, g).
#[global] Instance M_bind : MBind M := λ A B f m g,
  match m g with
  | (OK a, g') => f a g'
  | (Raise e, g') => (Raise e, g')
  end.

Definition throw {A} (e : exn) : M A := λ g, (Raise e, g).
Definition this : M GattClient := λ g, (OK g, g).
Definition assign (f : GattClient → GattClient) : M unit := λ g, (OK tt, f g).

(** [client.write(command)] *)
Definition client_write (command : Command) : M unit :=
  λ g, let '(r, c) := Bled112Client_write command (client g) in
       (r, with_client c g).

(** Modelled from the spec: [client.read<T>()], the single-type read of
    section 6, "blocks until the next decoded message arrives ... returns
    the decoded value"; a message of another type is rejected by the
    transport. *)
Definition client_read {T} (view : View T) : M T :=
  λ g, match incoming (client g) with
       | [] => (Raise no_message, g)
       | m :: msgs =>
           match view m with
           | Some t => (OK t, with_incoming msgs g)
           | None => (Raise unexpected_message, with_incoming msgs g)
           end
       end.

(** Modelled from the spec: [readResponse<T>()] (a member template of
    [gattclient.h], which is not under [src/]) awaits the message of type
    [T].  The event buffer is the "holding area for events observed while
    waiting for an unrelated response", and [listen] says that events "get
    ofloaded to the queue when reading the read or write request response":
    attribute-value events that arrive first are appended to [event_queue];
    any other message is rejected. *)
Fixpoint await {T} (view : View T) (msgs : list Message) (queue : list Event)
  : result T * list Message * list Event :=
  match msgs with
  | [] => (Raise no_message, [], queue)
  | m :: msgs' =>
      match view m with
      | Some t => (OK t, msgs', queue)
      | None =>
          match m with
          | AttclientAttributeValueEvent atthandle _ data =>
              await view msgs' (queue ++ [(atthandle, data)])
          | _ => (Raise unexpected_message, msgs', queue)
          end
      end
  end.

Definition readResponse {T} (view : View T) : M T :=
  λ g, let '(r, msgs, queue) := await view (incoming (client g)) (event_queue g) in
       (r, with_event_queue queue (with_incoming msgs g)).

(** Modelled from the spec: [client.read(handler, ...)], the read with one
    handler per message type, "dispatches to the matching typed handler
    (single dispatch per call)".  It yields the next message; the caller's
    [match] is the dispatch, and a message without handler is dropped
    ("discarded (not buffered)", section 4.2). *)
Definition next_message (msgs : list Message) : result Message * list Message :=
  match msgs with
  | [] => (Raise no_message, [])
  | m :: msgs' => (OK m, msgs')
  end.

(** ** [GattClient::discover] (lines 35-59)

    [callback] may keep state of its own: it maps its state [U] and the
    arguments to its answer and its new state. *)
Definition DeviceCallback (U : Type) : Type := U → Z → Address → Buffer → bool * U.

(** [while (running) client.read(discover_response, discover_event)]: each
    round dispatches the head of the script; [discover_response] does
    nothing, and neither does a message without handler. *)
Fixpoint discover_loop {U} (callback : DeviceCallback U) (u : U)
    (msgs : list Message) : result unit * U * list Message :=
  match msgs with
  | [] => (Raise no_message, u, [])
  | GapScanResponseEvent rssi sender data :: msgs' =>
      let '(continue, u') := callback u rssi sender data in
      if continue : bool then discover_loop callback u' msgs'
      else (OK tt, u', msgs')
  | _ :: msgs' => discover_loop callback u msgs'
  end.

Definition discover {U} (callback : DeviceCallback U) (u : U) (g : GattClient)
  : result unit * U * GattClient :=
  match client_write (GapDiscover DiscoverGeneric) g with
  | (Raise e, g1) => (Raise e, u, g1)
  | (OK _, g1) =>
      let '(r, u', msgs) := discover_loop callback u (incoming (client g1)) in
      let g2 := with_incoming msgs g1 in
      match r with
      | Raise e => (Raise e, u', g2)
      | OK _ =>
          let '(r', g3) :=
            (client_write GapEndProcedure;;
             client_read (plain GapEndProcedureResponse)) g2 in
          (r', u', g3)
      end
  end.

(** ** [GattClient::connect(const Address &)] (lines 63-92) *)

(** The condition of line 75: the [Connected] bit is set and the six bytes
    of [status.address] are those of [address]. *)
Definition same_device (address : Address) (status : Status.t) : bool :=
  bool_decide (Z.land (Status.flags status) Connected ≠ 0)
  && bool_decide (address = Status.address status).
Arguments same_device : simpl never.

(** The loop of lines 70-80 over the slots still to ask; [true] when a
    slot was adopted and [connect] returns from inside the loop. *)
Fixpoint connect_revive (address : Address) (slots : list Z) : M bool :=
  match slots with
  | [] => mret false
  | i :: slots' =>
      client_write (ConnectionGetStatus i);;
      readResponse (plain ConnectionGetStatusResponse);;
      status ← readResponse status_event;
      if same_device address status
      then assign (with_connection i);; mret true
      else connect_revive address slots'
  end.

Definition connect (address : Address) : M unit :=
  revived ← connect_revive address [0; 1; 2];
  if revived : bool then mret tt
  else
    client_write (GapConnectDirect address AddressTypePublic 6 6 64 0);;
    response ← readResponse connect_direct_response;
    assign (with_connection response);;
    readResponse status_event;;
    assign (with_connected true);;
    assign (with_address address).

(** ** [GattClient::connect(const std::string &)] (lines 94-113) *)
Definition connect_string (build : Build) (before : Stale) (str : string)
  : M unit :=
  match parse_address build before str with
  | Raise e => throw e
  | OK address => connect address
  end.

(** ** [GattClient::connected] and [GattClient::address] (lines 115-127) *)
Definition connected : M bool :=
  g ← this; mret (connected_ g).

Definition address_of : M Address :=
  g ← this;
  if negb (connected_ g)
  then throw (logic_error "Connection is not established, no address available.")
  else mret (address_ g).

(** ** [GattClient::disconnect] and [disconnectAll] (lines 129-150) *)
Definition disconnect (slot : Z) : M unit :=
  client_write (ConnectionDisconnect slot);;
  readResponse (plain ConnectionDisconnectResponse);;
  g ← this;
  if connected_ g && bool_decide (connection g = slot)
  then readResponse (plain ConnectionDisconnectedEvent);;
       assign (with_connected false)
  else mret tt.

Definition disconnect_active : M unit :=
  g ← this; disconnect (connection g).

Fixpoint disconnect_each (slots : list Z) : M unit :=
  match slots with
  | [] => mret tt
  | i :: slots' => disconnect i;; disconnect_each slots'
  end.

Definition disconnectAll : M unit := disconnect_each [0; 1; 2].

(** ** [GattClient::writeAttribute] (lines 152-157) *)
Definition writeAttribute (handle : Z) (payload : Buffer) : M unit :=
  g ← this;
  client_write (AttclientAttributeWrite (connection g) handle
                  (Z.of_nat (length payload) mod 256) payload);;
  readResponse (plain AttclientAttributeWriteResponse);;
  readResponse (plain AttclientProcedureCompletedEvent).

(** ** [GattClient::readAttribute] (lines 159-177) *)

(** The [retry] loop: [client.read<AttclientAttributeValueEvent<0>>(data)]
    until the event carries the handle asked for. *)
Fixpoint readAttribute_retry (handle : Z) (msgs : list Message)
    (queue : list Event) : result Buffer * list Message * list Event :=
  match msgs with
  | [] => (Raise no_message, [], queue)
  | AttclientAttributeValueEvent atthandle len data :: msgs' =>
      if bool_decide (atthandle ≠ handle)
      then readAttribute_retry handle msgs' (queue ++ [(atthandle, data)])
      else if bool_decide (len ≠ Z.of_nat (length data))
      then (Raise (runtime_error "Data length does not match the expected value."),
            msgs', queue)
      else (OK data, msgs', queue)
  | _ :: msgs' => (Raise unexpected_message, msgs', queue)
  end.

Definition readAttribute_value (handle : Z) : M Buffer :=
  λ g, let '(r, msgs, queue) :=
         readAttribute_retry handle (incoming (client g)) (event_queue g) in
       (r, with_event_queue queue (with_incoming msgs g)).

Definition readAttribute (handle : Z) : M Buffer :=
  g ← this;
  client_write (AttclientReadByHandle (connection g) handle);;
  readResponse (plain AttclientReadByHandleResponse);;
  readAttribute_value handle.

(** ** [GattClient::listen] (lines 179-191) *)
Definition NotificationCallback (U : Type) : Type := U → Z → Buffer → U.

(** [for (const auto &event : event_queue) callback(...)] *)
Definition deliver {U} (callback : NotificationCallback U) (events : list Event)
    (u : U) : U :=
  fold_left (λ u event, callback u event.1 event.2) events u.

Definition listen {U} (callback : NotificationCallback U) (u : U) (g : GattClient)
  : result unit * U * GattClient :=
  let u1 := deliver callback (event_queue g) u in
  let g1 := with_event_queue [] g in
  let '(r, msgs) := next_message (incoming (client g1)) in
  let g2 := with_incoming msgs g1 in
  match r with
  | Raise e => (Raise e, u1, g2)
  | OK (AttclientAttributeValueEvent atthandle _ data) =>
      (OK tt, callback u1 atthandle data, g2)
  | OK _ => (OK tt, u1, g2)
  end.

(** ** [GattClient::characteristics] (lines 193-220)

    [Characteristics] is [std::map<Buffer, std::uint16_t>].  Each round of
    [while (running) client.read(information_found, procedure_completed)]
    dispatches the head of the script. *)
Fixpoint characteristics_loop (chr : gmap Buffer Z) (msgs : list Message)
  : result (gmap Buffer Z) * list Message :=
  match msgs with
  | [] => (Raise no_message, [])
  | AttclientFindInformationFoundEvent chrhandle len uuid :: msgs' =>
      if bool_decide (len ≠ Z.of_nat (length uuid))
      then (Raise (runtime_error "UUID size does not match the expected value."),
            msgs')
      else characteristics_loop (<[uuid := chrhandle]> chr) msgs'
  | AttclientProcedureCompletedEvent :: msgs' => (OK chr, msgs')
  | _ :: msgs' => characteristics_loop chr msgs'
  end.

Definition characteristics_found : M (gmap Buffer Z) :=
  λ g, let '(r, msgs) := characteristics_loop ∅ (incoming (client g)) in
       (r, with_incoming msgs g).

Definition characteristics : M (gmap Buffer Z) :=
  g ← this;
  client_write (AttclientFindInformation (connection g) 0x0001 0xFFFF);;
  client_read (plain AttclientFindInformationResponse);;
  characteristics_found.

(** * The vocabulary of the statements *)

(** ** Scripts: what the transport delivers *)

(** Attribute-value events as they travel, [(atthandle, length, data)],
    and as [event_queue] keeps them, [(atthandle, data)]. *)
Definition value_events (events : list (Z * Z * Buffer)) : list Message :=
  map (λ ev, AttclientAttributeValueEvent ev.1.1 ev.1.2 ev.2) events.

Definition buffered (events : list (Z * Z * Buffer)) : list Event :=
  map (λ ev, (ev.1.1, ev.2)) events.

(** A view that is not the view of attribute-value events. *)
Definition response_view {T} (view : View T) : Prop :=
  ∀ atthandle len data, view (AttclientAttributeValueEvent atthandle len data) = None.

(** What the dongle sends when asked for the status of slots 0, 1, ... in
    turn: for each slot the response to the command, then the status
    event. *)
Definition status_reports (statuses : list Status.t) : list Message :=
  flat_map (λ s, [ConnectionGetStatusResponse;
                  ConnectionStatusEvent (Status.flags s) (Status.address s)])
    statuses.

(** The commands that ask for the status of slots [0 .. n-1]. *)
Definition status_queries (n : nat) : list Command :=
  map (λ i, ConnectionGetStatus (Z.of_nat i)) (seq 0 n).

Definition is_connect_direct (command : Command) : bool :=
  match command with GapConnectDirect _ _ _ _ _ _ => true | _ => false end.

(** What the dongle sends while the slots are disconnected in turn: the
    response to each command and, where the slot is the driver's connected
    active slot, the disconnected event after it. *)
Definition disconnect_reports (g : GattClient) (slots : list Z) : list Message :=
  flat_map (λ i, ConnectionDisconnectResponse ::
                 if connected_ g && bool_decide (connection g = i)
                 then [ConnectionDisconnectedEvent] else []) slots.

(** Information-found events as they travel, [(chrhandle, length, uuid)]. *)
Definition found_events (infos : list (Z * Z * Buffer)) : list Message :=
  map (λ i, AttclientFindInformationFoundEvent i.1.1 i.1.2 i.2) infos.

(** The declared length of the UUID is its size. *)
Definition well_sized (i : Z * Z * Buffer) : Prop := i.1.2 = Z.of_nat (length i.2).

(** ** States and outcomes *)

(** The state in which [connect] returns from inside the loop, when the
    slots before slot [length others] reported [others] and that slot
    reported [s]. *)
Definition revived (g : GattClient) (others : list Status.t) (rest : list Message)
  : GattClient :=
  with_connection (Z.of_nat (length others))
    (with_client {| incoming := rest;
                    sent := sent (client g) ++ status_queries (S (length others));
                    writable := writable (client g) - S (length others) |} g).

(** [chr[uuid] = event.chrhandle] for each event in turn. *)
Definition enter (chr : gmap Buffer Z) (infos : list (Z * Z * Buffer))
  : gmap Buffer Z :=
  fold_left (λ chr i, <[i.2 := i.1.1]> chr) infos chr.

(** From [g] to [g'] the connection state is as it was, the event buffer
    has at most grown at its end, and the transport has at most been read
    further. *)
Record undisturbed (g g' : GattClient) : Prop :=
  { same_connected : connected_ g' = connected_ g;
    same_address : address_ g' = address_ g;
    same_connection : connection g' = connection g;
    queue_grown : event_queue g `prefix_of` event_queue g';
    script_read : incoming (client g') `suffix_of` incoming (client g) }.

(** Section 7 of the specification, for one operation: when it throws,
    the connected flag, the active slot and the stored peer address are as
    before the call. *)
Definition fails_without_trace {A} (operation : M A) : Prop :=
  ∀ g e g', operation g = (Raise e, g') →
    connected_ g' = connected_ g
    ∧ connection g' = connection g
    ∧ address_ g' = address_ g.

(** ** Callbacks *)

(** A callback that writes down what it is called with. *)
Definition record : NotificationCallback (list Event) :=
  λ log atthandle data, log ++ [(atthandle, data)].

(** The callback answers [true] to every scan response among [msgs];
    [Some u'] gives its state after these calls. *)
Fixpoint keeps_scanning {U} (callback : DeviceCallback U) (u : U)
    (msgs : list Message) : option U :=
  match msgs with
  | [] => Some u
  | GapScanResponseEvent rssi sender data :: msgs' =>
      let '(continue, u') := callback u rssi sender data in
      if continue : bool then keeps_scanning callback u' msgs' else None
  | _ :: msgs' => keeps_scanning callback u msgs'
  end.

(** A callback that writes down the senders and stops at [wanted]. *)
Definition until (wanted : Address) : DeviceCallback (list Address) :=
  λ seen rssi sender data,
    (negb (bool_decide (sender = wanted)), seen ++ [sender]).

(** ** Printed groups *)

(** The two characters that [std::hex << std::setw(2)] writes for a byte. *)
Definition hex_hi (fill : ascii) (b : byte) : ascii :=
  let n := Byte.to_N b in
  if (n <? 16)%N then fill else Stream.hex_char (n / 16).

Definition hex_lo (b : byte) : ascii :=
  let n := Byte.to_N b in
  if (n <? 16)%N then Stream.hex_char n else Stream.hex_char (n mod 16).

(** The text of the groups [bs], first to last, each written as
    [print_address] writes a group and each followed by a colon. *)
Definition colon_groups (fill : ascii) (bs : list byte) : string :=
  fold_right (λ b text, Stream.put_hex_w2 fill b +:+ ":" +:+ text) "" bs.

(** A character that can end a group: no digit, no blank, no [x]. *)
Definition ends_group (c : ascii) : Prop :=
  Stream.hex_digit c = None ∧ Stream.isspace c = false
  ∧ c ≠ "x"%char ∧ c ≠ "X"%char.

(** ** Concrete runs *)

(** Two devices. *)
Definition myo : Address := [x06; x05; x04; x03; x02; x01].
Definition stranger : Address := [x16; x15; x14; x13; x12; x11].

(** A driver that is not connected and has nothing buffered; the slot it
    used last is slot 0, and the link accepts eight more commands. *)
Definition fresh (msgs : list Message) : GattClient :=
  {| client := {| incoming := msgs; sent := []; writable := 8 |};
     connected_ := false;
     address_ := replicate 6 x00;
     connection := 0;
     event_queue := [] |}.

(** Slot 0 is idle and slot 1 is still connected to [myo]. *)
Definition slot1_alive : list Message :=
  status_reports [Status.make 0 (replicate 6 x00); Status.make 1 myo].

(** The scenario of section 8: handle [0x002A] is asked for and a
    notification for [0x0030] arrives before the answer; one for [0x0031]
    arrives after it. *)
Definition notified_first : list Message :=
  [AttclientReadByHandleResponse;
   AttclientAttributeValueEvent 0x0030 1 [x07];
   AttclientAttributeValueEvent 0x002A 2 [x01; x02];
   AttclientAttributeValueEvent 0x0031 1 [x09]].

(** Two 16-bit UUIDs, as they travel. *)
Definition battery_uuid : Buffer := [x19; x2a].
Definition name_uuid : Buffer := [x00; x2a].

(** No slot is connected to the device, the dongle answers the
    direct-connect command with slot 2, and then the link goes silent. *)
Definition silent_after_response : list Message :=
  status_reports (replicate 3 (Status.make 0 (replicate 6 x00)))
  ++ [GapConnectDirectResponse 2].

(** Something that was in the place of [value] and [delimiter] before the
    loop. *)
Definition leftover : Stale := {| stale_value := 23130; stale_delimiter := "?" |}.





(** ** Tactics *)

(** Unfold the monad and evaluate a run as far as the script is known. *)
Ltac run :=
  repeat progress
    (cbv delta [mbind M_bind mret M_ret assign this throw plain
                client_write Bled112Client_write client_read readResponse];
     simpl).

(** * Verification *)

(** ** Running the monad *)

(** A run of [m ≫= f] either stops at the exception of [m] or goes on
    with [f]. *)
Lemma bind_inv {A B} (m : M A) (f : A → M B) g r g' :
  (m ≫= f) g = (r, g') →
  (∃ a g1, m g = (OK a, g1) ∧ f a g1 = (r, g'))
  ∨ (∃ e, m g = (Raise e, g') ∧ r = Raise e).
Proof.
  unfold mbind, M_bind. destruct (m g) as [[a|e] g1]; intros H.
  - left. eauto.
  - right. inversion H; subst. eauto.
Qed.

(** Split a run of [m ≫= f] in hypothesis [H] into the run [H1] of [m],
    with value [a] and state [g1], and the rest. *)
Ltac step H a g1 H1 :=
  apply bind_inv in H as [(a & g1 & H1 & H) | (? & H1 & ?)]; [|simplify_eq].

(** ** What the messages of a script are *)

Lemma await_value_events {T} (view : View T) events msgs queue :
  response_view view →
  await view (value_events events ++ msgs) queue
  = await view msgs (queue ++ buffered events).
Proof.
  intros Hview. revert queue.
  induction events as [|[[h len] data] events IH]; intros queue; simpl.
  - by rewrite app_nil_r.
  - rewrite Hview, IH. by rewrite <-app_assoc.
Qed.

Lemma plain_response_view m0 :
  (∀ atthandle len data, m0 ≠ AttclientAttributeValueEvent atthandle len data) →
  response_view (plain m0).
Proof.
  intros Hm0 h len data. unfold plain.
  destruct (decide _) as [E|]; [|done]. by destruct (Hm0 h len data).
Qed.

(** ** What a run leaves alone *)

Lemma undisturbed_refl g : undisturbed g g.
Proof. by split. Qed.

Lemma undisturbed_trans g1 g2 g3 :
  undisturbed g1 g2 → undisturbed g2 g3 → undisturbed g1 g3.
Proof.
  intros [] []. split; try congruence; by etrans.
Qed.

Lemma client_write_undisturbed command g r g' :
  client_write command g = (r, g') → undisturbed g g'.
Proof.
  unfold client_write, Bled112Client_write.
  destruct (writable (client g)); intros [= <- <-]; by split.
Qed.

Lemma client_read_undisturbed {T} (view : View T) g r g' :
  client_read view g = (r, g') → undisturbed g g'.
Proof.
  unfold client_read. destruct (incoming (client g)) as [|m msgs] eqn:Hin.
  - intros [= <- <-]. by split.
  - destruct (view m); intros [= <- <-]; split; simpl; try done;
      rewrite Hin; by apply suffix_cons_r.
Qed.

Lemma await_inv {T} (view : View T) msgs queue r msgs' queue' :
  await view msgs queue = (r, msgs', queue') →
  queue `prefix_of` queue' ∧ msgs' `suffix_of` msgs
  ∧ ∀ t, r = OK t → ∃ m, m ∈ msgs ∧ view m = Some t.
Proof.
  revert queue. induction msgs as [|m msgs IH]; intros queue; simpl.
  - intros [= <- <- <-]. by split_and!.
  - destruct (view m) as [t|] eqn:Hview.
    + intros [= <- <- <-]. split_and!; [done | by apply suffix_cons_r |].
      intros ? [= <-]. exists m. split; [left|done].
    + destruct m; try (intros [= <- <- <-]; split_and!;
                       [done | by apply suffix_cons_r | done]).
      intros H. apply IH in H as (Hq & Hm & Ht). split_and!.
      * etrans; [|done]. by apply prefix_app_r.
      * by apply suffix_cons_r.
      * intros t Hr. destruct (Ht t Hr) as (m & ? & ?).
        exists m. split; [by right | done].
Qed.

Lemma readResponse_undisturbed {T} (view : View T) g r g' :
  readResponse view g = (r, g') → undisturbed g g'.
Proof.
  unfold readResponse.
  destruct (await view _ _) as [[r0 msgs] queue] eqn:Hawait.
  intros [= <- <-]. apply await_inv in Hawait as (? & ? & _). by split.
Qed.

Lemma readResponse_received {T} (view : View T) g t g' :
  readResponse view g = (OK t, g') →
  ∃ m, m ∈ incoming (client g) ∧ view m = Some t.
Proof.
  unfold readResponse.
  destruct (await view _ _) as [[r0 msgs] queue] eqn:Hawait.
  intros [= -> <-]. apply await_inv in Hawait as (_ & _ & Ht). by apply Ht.
Qed.

Lemma client_write_sent command g a g' :
  client_write command g = (OK a, g') →
  sent (client g') = sent (client g) ++ [command].
Proof.
  unfold client_write, Bled112Client_write.
  destruct (writable (client g)); [done|]. by intros [= <- <-].
Qed.

Lemma readResponse_sent {T} (view : View T) g r g' :
  readResponse view g = (r, g') → sent (client g') = sent (client g).
Proof.
  unfold readResponse. destruct (await view _ _) as [[r0 msgs] queue].
  by intros [= <- <-].
Qed.

Lemma characteristics_loop_suffix chr msgs r msgs' :
  characteristics_loop chr msgs = (r, msgs') → msgs' `suffix_of` msgs.
Proof.
  revert chr. induction msgs as [|m msgs IH]; intros chr; simpl.
  - by intros [= <- <-].
  - destruct m; try (intros H; apply IH in H; by apply suffix_cons_r).
    + intros [= <- <-]. by apply suffix_cons_r.
    + case_bool_decide.
      * intros [= <- <-]. by apply suffix_cons_r.
      * intros H'. apply IH in H'. by apply suffix_cons_r.
Qed.

(** Close a goal [undisturbed g g'] from the runs in the context that lead
    from [g] to [g']. *)
Ltac frame :=
  solve
    [ apply undisturbed_refl
    | eauto using client_write_undisturbed, readResponse_undisturbed,
        client_read_undisturbed
    | eapply undisturbed_trans;
      [ solve [eauto using client_write_undisturbed, readResponse_undisturbed,
                 client_read_undisturbed]
      | frame ] ].

(** The loop of [connect] either adopts a slot, and then has done nothing
    else to the connection state than to assign [connection], or leaves
    the connection state alone. *)
Lemma connect_revive_inv address slots g r g' :
  connect_revive address slots g = (r, g') →
  (r ≠ OK true ∧ undisturbed g g')
  ∨ (r = OK true ∧ ∃ g1 i, undisturbed g g1 ∧ g' = with_connection i g1).
Proof.
  revert g. induction slots as [|i slots IH]; intros g H; simpl in H.
  - injection H as <- <-. left. split; [done | frame].
  - step H ack1 g1 H1; [|left; split; [done | frame]].
    step H ack2 g2 H2; [|left; split; [done | frame]].
    step H status g3 H3; [|left; split; [done | frame]].
    destruct (same_device address status).
    + injection H as <- <-. right. split; [done|].
      exists g3, i. split; [frame | done].
    + apply IH in H as [[? ?] | [? (g4 & j & ? & ->)]].
      * left. split; [done | frame].
      * right. split; [done|]. exists g4, j. split; [frame | done].
Qed.

(** ** [address()] and [connected()] *)

(** C8: while [connected_] is false [address()] throws the
    [std::logic_error] "Connection is not established, no address
    available." (the usage error of the specification) and yields no
    address; while it is true [address()] returns [address_].  Neither
    case changes the driver. *)
Theorem address_only_while_connected (g : GattClient) :
  address_of g =
    (if connected_ g then OK (address_ g)
     else Raise (logic_error "Connection is not established, no address available."),
     g).
Proof. unfold address_of, this, mbind, M_bind. by destruct (connected_ g). Qed.

Lemma connected_reads_flag (g : GattClient) : connected g = (OK (connected_ g), g).
Proof. done. Qed.

(** ** [connect]: adopting a slot that is already connected *)

Lemma connect_revives (address : Address) (g : GattClient)
    (others : list Status.t) (s : Status.t) (rest : list Message) :
  (length others < 3)%nat →
  Forall (λ o, same_device address o = false) others →
  same_device address s = true →
  incoming (client g) = status_reports (others ++ [s]) ++ rest →
  (length others < writable (client g))%nat →
  connect address g = (OK tt, revived g others rest).
Proof.
  intros Hslots Hothers Hs Hin Hw.
  destruct g as [[inc snt w] cn ad c q], s as [fs as_]. simpl in *. subst inc.
  destruct others as [|[f1 a1] [|[f2 a2] [|? others]]]; simpl in *; [..|lia].
  - destruct w as [|w]; [lia|].
    unfold connect, revived. run. rewrite Hs. run.
    by rewrite Nat.sub_0_r.
  - apply Forall_cons in Hothers as [H1 _].
    destruct w as [|[|w]]; [lia..|].
    unfold connect, revived. run. rewrite H1. run. rewrite Hs. cbn.
    by rewrite Nat.sub_0_r, <-app_assoc.
  - apply Forall_cons in Hothers as [H1 Hothers].
    apply Forall_cons in Hothers as [H2 _].
    destruct w as [|[|[|w]]]; [lia..|].
    unfold connect, revived. run. rewrite H1. run. rewrite H2. run. rewrite Hs. cbn.
    by rewrite Nat.sub_0_r, <-!app_assoc.
Qed.

(** C3: when the slots asked before slot [i] report that they are not
    connected to [address] and slot [i] reports status [Connected] with
    peer address [address], [connect address] returns normally with [i] as
    the active slot.  The only commands it has sent are the status queries
    for slots [0 .. i]; none of them is a direct-connect command, and the
    messages after the status event of slot [i] are left unread. *)
Theorem connect_adopts_connected_slot (address : Address) (g : GattClient)
    (others : list Status.t) (s : Status.t) (rest : list Message) :
  (length others < 3)%nat →
  Forall (λ o, same_device address o = false) others →
  Z.land (Status.flags s) Connected ≠ 0 →
  Status.address s = address →
  incoming (client g) = status_reports (others ++ [s]) ++ rest →
  (length others < writable (client g))%nat →
  ∃ g', connect address g = (OK tt, g')
        ∧ connection g' = Z.of_nat (length others)
        ∧ sent (client g') = sent (client g) ++ status_queries (S (length others))
        ∧ Forall (λ c, is_connect_direct c = false)
            (status_queries (S (length others)))
        ∧ incoming (client g') = rest.
Proof.
  intros Hslots Hothers Hflags Haddr Hin Hw.
  exists (revived g others rest). split.
  - apply connect_revives with (s := s); try done.
    unfold same_device. rewrite andb_true_iff, !bool_decide_eq_true. done.
  - repeat split; try done.
    apply Forall_forall. intros c Hc. unfold status_queries in Hc.
    apply list_elem_of_fmap in Hc as (i & -> & _). done.
Qed.

(** C10: in the situation of C3 [connect] changes neither [connected_] nor
    [address_].  A driver that was not connected before therefore still
    answers [false] to [connected()] and still throws from [address()],
    although the call succeeded and a slot is active. *)
Theorem connect_revival_keeps_flag_and_address (address : Address) (g : GattClient)
    (others : list Status.t) (s : Status.t) (rest : list Message) :
  (length others < 3)%nat →
  Forall (λ o, same_device address o = false) others →
  Z.land (Status.flags s) Connected ≠ 0 →
  Status.address s = address →
  incoming (client g) = status_reports (others ++ [s]) ++ rest →
  (length others < writable (client g))%nat →
  ∃ g', connect address g = (OK tt, g')
        ∧ connected_ g' = connected_ g
        ∧ address_ g' = address_ g
        ∧ (connected_ g = false →
           connected g' = (OK false, g')
           ∧ address_of g' =
               (Raise (logic_error
                  "Connection is not established, no address available."), g')).
Proof.
  intros Hslots Hothers Hflags Haddr Hin Hw.
  exists (revived g others rest). split.
  - apply connect_revives with (s := s); try done.
    unfold same_device. rewrite andb_true_iff, !bool_decide_eq_true. done.
  - repeat split; try done.
    + unfold connected. run. by rewrite H.
    + unfold address_of. run. by rewrite H.
Qed.

Lemma connect_adopts_connected_slot_witness :
  ∃ g', connect myo (fresh slot1_alive) = (OK tt, g')
        ∧ connection g' = 1
        ∧ sent (client g') = [ConnectionGetStatus 0; ConnectionGetStatus 1]
        ∧ Forall (λ c, is_connect_direct c = false)
            [ConnectionGetStatus 0; ConnectionGetStatus 1]
        ∧ incoming (client g') = [].
Proof.
  apply (connect_adopts_connected_slot myo (fresh slot1_alive)
           [Status.make 0 (replicate 6 x00)] (Status.make 1 myo) []).
  - simpl. lia.
  - repeat constructor.
  - simpl. discriminate.
  - reflexivity.
  - reflexivity.
  - simpl. lia.
Defined.

Lemma connect_revival_keeps_flag_and_address_witness :
  ∃ g', connect myo (fresh slot1_alive) = (OK tt, g')
        ∧ connected_ g' = false
        ∧ address_ g' = replicate 6 x00
        ∧ (false = false →
           connected g' = (OK false, g')
           ∧ address_of g' =
               (Raise (logic_error
                  "Connection is not established, no address available."), g')).
Proof.
  apply (connect_revival_keeps_flag_and_address myo (fresh slot1_alive)
           [Status.make 0 (replicate 6 x00)] (Status.make 1 myo) []).
  - simpl. lia.
  - repeat constructor.
  - simpl. discriminate.
  - reflexivity.
  - reflexivity.
  - simpl. lia.
Defined.

(** When no slot is connected to the device, [connect] opens a connection:
    it sends the direct-connect command, takes the slot of the response
    and, once the status event is in, sets [connected_] and [address_]. *)
Example connect_opens_connection :
  let g := fresh (silent_after_response ++ [ConnectionStatusEvent 5 myo]) in
  ∃ g', connect myo g = (OK tt, g')
        ∧ connected_ g' = true ∧ connection g' = 2 ∧ address_ g' = myo
        ∧ sent (client g') =
            status_queries 3 ++ [GapConnectDirect myo AddressTypePublic 6 6 64 0].
Proof. eexists. by vm_compute. Qed.

(** ** What a failed operation leaves behind *)

(** C4, as stated, fails for [connect]: the read of the status event
    throws, and the active slot is 2 instead of the 0 it was before the
    call. *)
Lemma connect_failure_moves_active_slot :
  (∃ g', connect myo (fresh silent_after_response) = (Raise no_message, g')
         ∧ connection (fresh silent_after_response) = 0
         ∧ connection g' = 2)
  ∧ ¬ fails_without_trace (connect myo).
Proof.
  assert (∃ g', connect myo (fresh silent_after_response) = (Raise no_message, g')
                ∧ connection (fresh silent_after_response) = 0
                ∧ connection g' = 2) as Hrun
    by (eexists; split; [by vm_compute | done]).
  split; [done|].
  destruct Hrun as (g' & Hrun & H0 & H2). intros Hclaim.
  destruct (Hclaim _ _ _ Hrun) as (_ & Hslot & _). by rewrite H0, H2 in Hslot.
Qed.

(** C4, amended: when [connect], [writeAttribute] or [characteristics]
    throws, [connected_] and [address_] are as before the call and
    [event_queue] has at most grown at its end.  The active slot is as
    before the call as well, except in a [connect] that throws after the
    response to its direct-connect command has arrived: that call has
    already made the slot named in the response the active slot. *)
Theorem failed_operation_keeps_connection_state :
  (∀ address g e g',
     connect address g = (Raise e, g') →
     connected_ g' = connected_ g
     ∧ address_ g' = address_ g
     ∧ event_queue g `prefix_of` event_queue g'
     ∧ (connection g' = connection g
        ∨ ∃ slot, GapConnectDirectResponse slot ∈ incoming (client g)
                  ∧ connection g' = slot))
  ∧ (∀ handle payload g e g',
       writeAttribute handle payload g = (Raise e, g') → undisturbed g g')
  ∧ (∀ g e g', characteristics g = (Raise e, g') → undisturbed g g').
Proof.
  split_and!.
  - intros address g e g' H. unfold connect in H.
    step H adopted g1 H1; cycle 1.
    { apply connect_revive_inv in H1 as [[_ []] | [[=] _]].
      by split_and!; [..|left]. }
    apply connect_revive_inv in H1 as [[Hne Hg1] | [[= ->] _]]; [|done].
    destruct adopted; [done|].
    step H sent_ g2 H2; cycle 1.
    { assert (undisturbed g g') as [] by frame. by split_and!; [..|left]. }
    step H slot g3 H3; cycle 1.
    { assert (undisturbed g g') as [] by frame. by split_and!; [..|left]. }
    destruct (readResponse_received _ _ _ _ H3) as (m & Hm & Hview).
    destruct m; try done. injection Hview as ->.
    assert (undisturbed g g2) as Hg2 by frame.
    assert (undisturbed g g3) as Hg3 by frame.
    assert (GapConnectDirectResponse slot ∈ incoming (client g)) as Hin.
    { destruct Hg2 as [_ _ _ _ [k ->]]. apply elem_of_app. by right. }
    step H assigned g4 H4. injection H4 as <-.
    step H status g5 H5; [discriminate H|].
    apply readResponse_undisturbed in H5 as [].
    destruct Hg3. simpl in *.
    split_and!; [congruence | congruence | by etrans | right; eauto].
  - intros handle payload g e g' H. unfold writeAttribute in H.
    step H g0 g0' H0. injection H0 as <- <-.
    step H sent_ g1 H1; [|frame].
    step H ack g2 H2; [|frame].
    frame.
  - intros g e g' H. unfold characteristics in H.
    step H g0 g0' H0. injection H0 as <- <-.
    step H sent_ g1 H1; [|frame].
    step H ack g2 H2; [|frame].
    assert (undisturbed g2 g'); [|frame].
    unfold characteristics_found in H.
    destruct (characteristics_loop _ _) as [r msgs] eqn:Hloop.
    injection H as _ <-. apply characteristics_loop_suffix in Hloop. by split.
Qed.

Lemma failed_operation_keeps_connection_state_witness :
  ∃ g', connect myo (fresh silent_after_response) = (Raise no_message, g')
        ∧ connected_ g' = false
        ∧ address_ g' = replicate 6 x00
        ∧ event_queue (fresh silent_after_response) `prefix_of` event_queue g'
        ∧ (connection g' = 0
           ∨ ∃ slot, GapConnectDirectResponse slot ∈ silent_after_response
                     ∧ connection g' = slot).
Proof.
  eexists. split; [by vm_compute|].
  apply (proj1 failed_operation_keeps_connection_state myo
           (fresh silent_after_response) no_message).
  by vm_compute.
Defined.

(** ** [disconnectAll] *)

(** C6: whatever the state of the driver, [disconnectAll] sends the three
    commands [ConnectionDisconnect 0, 1, 2] and nothing else.  It reads one
    response per command, and one disconnected event more exactly when the
    driver is connected and the slot is its active slot; the messages after
    these are left unread.  [connected_] is cleared exactly when the active
    slot of a connected driver is one of the three. *)
Theorem disconnectAll_three_commands (g : GattClient) (rest : list Message) :
  incoming (client g) = disconnect_reports g [0; 1; 2] ++ rest →
  (3 ≤ writable (client g))%nat →
  ∃ g', disconnectAll g = (OK tt, g')
        ∧ sent (client g') =
            sent (client g)
            ++ [ConnectionDisconnect 0; ConnectionDisconnect 1; ConnectionDisconnect 2]
        ∧ incoming (client g') = rest
        ∧ connected_ g' =
            (connected_ g && negb (bool_decide (connection g ∈ [0; 1; 2])))
        ∧ connection g' = connection g.
Proof.
  intros Hin Hw.
  destruct g as [[inc snt w] cn ad c q]. simpl in *. subst inc.
  destruct w as [|[|[|w]]]; [lia..|].
  unfold disconnectAll, disconnect_reports.
  destruct cn; simpl.
  - destruct (decide (c = 0)) as [->|H0]; [|destruct (decide (c = 1)) as [->|H1];
      [|destruct (decide (c = 2)) as [->|H2]]].
    + eexists. run. split; [done|]. by rewrite <-!app_assoc.
    + eexists. run. split; [done|]. by rewrite <-!app_assoc.
    + eexists. run. split; [done|]. by rewrite <-!app_assoc.
    + rewrite !bool_decide_eq_false_2 by done.
      eexists. simpl. unfold disconnect.
      repeat progress (run; rewrite ?bool_decide_eq_false_2 by done).
      split; [done|]. rewrite <-!app_assoc. repeat split.
      rewrite bool_decide_eq_false_2; [done|].
      rewrite !elem_of_cons, elem_of_nil. by intros [?|[?|[?|[]]]].
  - eexists. run. split; [done|]. by rewrite <-!app_assoc.
Qed.

Lemma disconnectAll_three_commands_witness :
  let g := with_connection 1 (with_connected true
             (fresh [ConnectionDisconnectResponse;
                     ConnectionDisconnectResponse; ConnectionDisconnectedEvent;
                     ConnectionDisconnectResponse;
                     AttclientAttributeValueEvent 48 1 [x07]])) in
  ∃ g', disconnectAll g = (OK tt, g')
        ∧ sent (client g') =
            [ConnectionDisconnect 0; ConnectionDisconnect 1; ConnectionDisconnect 2]
        ∧ incoming (client g') = [AttclientAttributeValueEvent 48 1 [x07]]
        ∧ connected_ g' = false
        ∧ connection g' = 1.
Proof.
  intros g.
  apply (disconnectAll_three_commands g [AttclientAttributeValueEvent 48 1 [x07]]).
  - reflexivity.
  - simpl. lia.
Defined.

(** The commands of [disconnect] do not depend on what the transport
    delivers: whenever the call returns, they are the ones below. *)
Lemma disconnect_returns slot g g' :
  disconnect slot g = (OK tt, g') →
  sent (client g') = sent (client g) ++ [ConnectionDisconnect slot]
  ∧ connection g' = connection g
  ∧ connected_ g' = (connected_ g && negb (bool_decide (connection g = slot))).
Proof.
  intros H. unfold disconnect in H.
  step H sent_ g1 H1. step H ack g2 H2. step H g2' g2'' H3.
  injection H3 as <- <-.
  pose proof (client_write_sent _ _ _ _ H1) as Hsent.
  pose proof (readResponse_sent _ _ _ _ H2) as Hsame.
  assert (undisturbed g g2) as [Hc _ Hs _ _] by frame.
  rewrite Hc, Hs in H.
  destruct (connected_ g); simpl in *; [case_bool_decide; simpl in *|].
  - step H event g3 H4. injection H as <-.
    pose proof (readResponse_sent _ _ _ _ H4).
    apply readResponse_undisturbed in H4 as []. simpl.
    split_and!; congruence.
  - injection H as <-. split_and!; congruence.
  - injection H as <-. split_and!; congruence.
Qed.

Lemma disconnectAll_returns g g' :
  disconnectAll g = (OK tt, g') →
  sent (client g') =
    sent (client g)
    ++ [ConnectionDisconnect 0; ConnectionDisconnect 1; ConnectionDisconnect 2]
  ∧ connection g' = connection g
  ∧ connected_ g' = (connected_ g && negb (bool_decide (connection g ∈ [0; 1; 2]))).
Proof.
  intros H. unfold disconnectAll in H. simpl in H.
  step H d0 g1 H1. step H d1 g2 H2. step H d2 g3 H3. injection H as <-.
  destruct d0, d1, d2.
  apply disconnect_returns in H1 as (S1 & C1 & F1).
  apply disconnect_returns in H2 as (S2 & C2 & F2).
  apply disconnect_returns in H3 as (S3 & C3 & F3).
  split_and!.
  - rewrite S3, S2, S1. by rewrite <-!app_assoc.
  - congruence.
  - rewrite F3, F2, F1, C2, C1. destruct (connected_ g); [simpl|done].
    destruct (decide (connection g = 0)) as [->|E0]; [done|].
    destruct (decide (connection g = 1)) as [->|E1]; [done|].
    destruct (decide (connection g = 2)) as [->|E2]; [done|].
    rewrite !bool_decide_eq_false_2; [done|..]; try done.
    rewrite !elem_of_cons, elem_of_nil. by intros [?|[?|[?|[]]]].
Qed.

(** ** [readAttribute] and [listen] *)

Lemma readAttribute_retry_buffers handle late msgs queue :
  Forall (λ ev : Z * Z * Buffer, ev.1.1 ≠ handle) late →
  readAttribute_retry handle (value_events late ++ msgs) queue
  = readAttribute_retry handle msgs (queue ++ buffered late).
Proof.
  intros Hlate. revert queue.
  induction Hlate as [|[[h len] data] late Hne _ IH]; intros queue; simpl in *.
  - by rewrite app_nil_r.
  - rewrite bool_decide_eq_true_2 by done. rewrite IH. by rewrite <-app_assoc.
Qed.

(** The whole of a [readAttribute] call whose answer arrives: events that
    come before the response to the command ([early]) and events for other
    handles that come before the answer ([late]) end up in [event_queue],
    in this order; the answer is checked and returned. *)
Lemma readAttribute_answered (g : GattClient) (handle : Z)
    (early late : list (Z * Z * Buffer)) (len : Z) (data : Buffer)
    (rest : list Message) (n : nat) :
  incoming (client g) =
    value_events early ++ [AttclientReadByHandleResponse] ++ value_events late
    ++ [AttclientAttributeValueEvent handle len data] ++ rest →
  Forall (λ ev, ev.1.1 ≠ handle) late →
  writable (client g) = S n →
  readAttribute handle g =
    (if bool_decide (len ≠ Z.of_nat (length data))
     then Raise (runtime_error "Data length does not match the expected value.")
     else OK data,
     with_event_queue (event_queue g ++ buffered early ++ buffered late)
       (with_client {| incoming := rest;
                       sent := sent (client g)
                               ++ [AttclientReadByHandle (connection g) handle];
                       writable := n |} g)).
Proof.
  intros Hin Hlate Hw.
  destruct g as [[inc snt w] cn ad c q]. simpl in *. subst inc w.
  unfold readAttribute, readAttribute_value. run.
  rewrite await_value_events by (by apply plain_response_view).
  run. rewrite readAttribute_retry_buffers by done. simpl.
  rewrite (bool_decide_eq_false_2 (handle ≠ handle)) by (by intros []).
  rewrite <-app_assoc. by case_bool_decide.
Qed.

(** C5: the first attribute-value event that carries the requested handle
    decides the call.  When its declared length is the size of its payload,
    [readAttribute] returns that payload, whole; when it is not,
    [readAttribute] throws the [std::runtime_error] "Data length does not
    match the expected value." (the protocol error of the specification)
    and returns nothing. *)
Theorem readAttribute_checks_declared_length (g : GattClient) (handle : Z)
    (early late : list (Z * Z * Buffer)) (len : Z) (data : Buffer)
    (rest : list Message) :
  incoming (client g) =
    value_events early ++ [AttclientReadByHandleResponse] ++ value_events late
    ++ [AttclientAttributeValueEvent handle len data] ++ rest →
  Forall (λ ev, ev.1.1 ≠ handle) late →
  (0 < writable (client g))%nat →
  ∃ g',
    (len = Z.of_nat (length data) → readAttribute handle g = (OK data, g'))
    ∧ (len ≠ Z.of_nat (length data) →
       readAttribute handle g =
         (Raise (runtime_error "Data length does not match the expected value."),
          g')).
Proof.
  intros Hin Hlate Hw.
  destruct (writable (client g)) as [|n] eqn:Hn; [lia|].
  eexists. split; intros Hlen.
  - rewrite (readAttribute_answered _ _ _ _ _ _ _ _ Hin Hlate Hn).
    by rewrite bool_decide_eq_false_2 by (by intros []).
  - rewrite (readAttribute_answered _ _ _ _ _ _ _ _ Hin Hlate Hn).
    by rewrite bool_decide_eq_true_2.
Qed.

Lemma deliver_app {U} (callback : NotificationCallback U) events events' u :
  deliver callback (events ++ events') u
  = deliver callback events' (deliver callback events u).
Proof. apply fold_left_app. Qed.

Lemma deliver_record events log : deliver record events log = log ++ events.
Proof.
  revert log. induction events as [|[h data] events IH]; intros log.
  - by rewrite app_nil_r.
  - change (deliver record events (record log h data) = log ++ (h, data) :: events).
    rewrite IH. unfold record. by rewrite <-app_assoc.
Qed.

(** C2: let a [readAttribute] call that returns have seen the events
    [early] before the response to its command and the events [late], all
    for other handles, before its answer.  It leaves them at the end of
    [event_queue] in arrival order.  The next [listen] calls the callback
    on the events of [event_queue] from the front to the back, once each,
    then on the event [live] that it reads from the transport, and leaves
    [event_queue] empty.  (With an empty queue before the read and nothing
    before the response, the calls are those for [late], then [live].) *)
Theorem listen_replays_buffer_in_order {U} (callback : NotificationCallback U)
    (u : U) (g : GattClient) (handle : Z) (early late : list (Z * Z * Buffer))
    (len : Z) (data : Buffer) (live : Z * Z * Buffer) (rest : list Message) :
  incoming (client g) =
    value_events early ++ [AttclientReadByHandleResponse] ++ value_events late
    ++ [AttclientAttributeValueEvent handle len data]
    ++ (value_events [live] ++ rest) →
  Forall (λ ev, ev.1.1 ≠ handle) late →
  len = Z.of_nat (length data) →
  (0 < writable (client g))%nat →
  ∃ g1 g2,
    readAttribute handle g = (OK data, g1)
    ∧ event_queue g1 = event_queue g ++ buffered early ++ buffered late
    ∧ listen callback u g1 =
        (OK tt,
         deliver callback
           (event_queue g ++ buffered early ++ buffered late ++ buffered [live]) u,
         g2)
    ∧ event_queue g2 = []
    ∧ incoming (client g2) = rest.
Proof.
  intros Hin Hlate Hlen Hw.
  destruct (writable (client g)) as [|n] eqn:Hn; [lia|].
  eexists _, _. split; [|split; [|split]].
  - rewrite (readAttribute_answered _ _ _ _ _ _ _ _ Hin Hlate Hn).
    by rewrite bool_decide_eq_false_2 by (by intros []).
  - done.
  - unfold listen. simpl. by rewrite !app_assoc, !deliver_app.
  - done.
Qed.

Lemma readAttribute_checks_declared_length_witness :
  ∃ g',
    (2 = 2 → readAttribute 0x002A (fresh notified_first) = (OK [x01; x02], g'))
    ∧ (2 ≠ 2 →
       readAttribute 0x002A (fresh notified_first) =
         (Raise (runtime_error "Data length does not match the expected value."),
          g')).
Proof.
  apply (readAttribute_checks_declared_length (fresh notified_first) 0x002A
           [] [(0x0030, 1, [x07])] 2 [x01; x02]
           [AttclientAttributeValueEvent 0x0031 1 [x09]]).
  - reflexivity.
  - repeat constructor. simpl. lia.
  - simpl. lia.
Defined.

Example readAttribute_length_mismatch_throws :
  (readAttribute 0x002A
     (fresh [AttclientReadByHandleResponse;
             AttclientAttributeValueEvent 0x002A 3 [x01; x02]])).1
  = Raise (runtime_error "Data length does not match the expected value.").
Proof. by vm_compute. Qed.

Lemma listen_replays_buffer_in_order_witness :
  ∃ g1 g2,
    readAttribute 0x002A (fresh notified_first) = (OK [x01; x02], g1)
    ∧ event_queue g1 = [(0x0030, [x07])]
    ∧ listen record [] g1 = (OK tt, [(0x0030, [x07]); (0x0031, [x09])], g2)
    ∧ event_queue g2 = []
    ∧ incoming (client g2) = [].
Proof.
  apply (listen_replays_buffer_in_order record [] (fresh notified_first) 0x002A
           [] [(0x0030, 1, [x07])] 2 [x01; x02] (0x0031, 1, [x09]) []).
  - reflexivity.
  - repeat constructor. simpl. lia.
  - reflexivity.
  - simpl. lia.
Defined.

(** ** [discover] *)

Lemma discover_loop_keeps_scanning {U} (callback : DeviceCallback U) u u1 before msgs :
  keeps_scanning callback u before = Some u1 →
  discover_loop callback u (before ++ msgs) = discover_loop callback u1 msgs.
Proof.
  revert u. induction before as [|m before IH]; intros u Hbefore; simpl in *.
  - by inversion Hbefore.
  - destruct m; try by apply IH.
    destruct (callback u rssi sender data) as [[] u']; [by apply IH | done].
Qed.

(** C7: let the callback answer [true] to the scan responses among
    [before] and [false] to the next scan response, and let [rest] be
    whatever the transport delivers after it, further scan responses
    included.  Then [discover] makes no call after that one: the callback
    is left in the state [u2] of its answer [false].  It sends
    [GapEndProcedure] once, after [GapDiscover], and nothing else; it then
    reads one message, the head of [rest], and returns exactly when that
    message is the response to [GapEndProcedure]. *)
Theorem discover_stops_and_ends_procedure {U} (callback : DeviceCallback U)
    (u u1 u2 : U) (g : GattClient) (before : list Message)
    (rssi : Z) (sender : Address) (data : Buffer) (rest : list Message) :
  incoming (client g) = before ++ GapScanResponseEvent rssi sender data :: rest →
  keeps_scanning callback u before = Some u1 →
  callback u1 rssi sender data = (false, u2) →
  (2 ≤ writable (client g))%nat →
  ∃ r g', discover callback u g = (r, u2, g')
          ∧ sent (client g') =
              sent (client g) ++ [GapDiscover DiscoverGeneric; GapEndProcedure]
          ∧ incoming (client g') = tail rest
          ∧ r = match rest with
                | [] => Raise no_message
                | GapEndProcedureResponse :: _ => OK tt
                | _ :: _ => Raise unexpected_message
                end.
Proof.
  intros Hin Hbefore Hstop Hw.
  destruct g as [[inc snt w] cn ad c q]. simpl in *. subst inc.
  destruct w as [|[|w]]; [lia..|].
  unfold discover. run.
  rewrite (discover_loop_keeps_scanning _ _ _ _ _ Hbefore). simpl.
  rewrite Hstop. run.
  destruct rest as [|m rest]; [|destruct m]; run;
    (eexists _, _; split; [reflexivity|]; simpl;
     split; [by rewrite <-app_assoc|done]).
Qed.

Lemma discover_stops_and_ends_procedure_witness :
  let g := fresh [GapDiscoverResponse;
                  GapScanResponseEvent (-70) stranger [];
                  GapScanResponseEvent (-48) myo [x02; x01; x06];
                  GapScanResponseEvent (-71) stranger [];
                  GapEndProcedureResponse;
                  GapScanResponseEvent (-72) stranger []] in
  ∃ r g', discover (until myo) [] g = (r, [stranger; myo], g')
          ∧ sent (client g') = [GapDiscover DiscoverGeneric; GapEndProcedure]
          ∧ incoming (client g') =
              [GapEndProcedureResponse; GapScanResponseEvent (-72) stranger []]
          ∧ r = Raise unexpected_message.
Proof.
  intros g.
  apply (discover_stops_and_ends_procedure (until myo) [] [stranger] [stranger; myo]
           g [GapDiscoverResponse; GapScanResponseEvent (-70) stranger []]
           (-48) myo [x02; x01; x06]
           [GapScanResponseEvent (-71) stranger [];
            GapEndProcedureResponse;
            GapScanResponseEvent (-72) stranger []]).
  - reflexivity.
  - reflexivity.
  - reflexivity.
  - simpl. lia.
Defined.

(** The same scan with the response to [GapEndProcedure] directly behind
    the scan response answered [false]: [discover] returns, and the scan
    response behind it is left unread. *)
Example discover_returns_after_end_procedure_response :
  let g := fresh [GapDiscoverResponse;
                  GapScanResponseEvent (-70) stranger [];
                  GapScanResponseEvent (-48) myo [x02; x01; x06];
                  GapEndProcedureResponse;
                  GapScanResponseEvent (-71) stranger []] in
  ∃ g', discover (until myo) [] g = (OK tt, [stranger; myo], g')
        ∧ sent (client g') = [GapDiscover DiscoverGeneric; GapEndProcedure]
        ∧ incoming (client g') = [GapScanResponseEvent (-71) stranger []].
Proof. by eexists. Qed.

(** Whenever [discover] returns it has sent [GapEndProcedure] once, as
    its last command. *)
Lemma discover_returns {U} (callback : DeviceCallback U) u g u' g' :
  discover callback u g = (OK tt, u', g') →
  sent (client g') =
    sent (client g) ++ [GapDiscover DiscoverGeneric; GapEndProcedure].
Proof.
  destruct g as [[inc snt w] cn ad c q]. unfold discover. run.
  destruct w as [|w]; [done|]. simpl.
  destruct (discover_loop callback u inc) as [[[[]|e] u1] msgs]; [|done].
  run. destruct w as [|w]; [done|]. simpl.
  destruct msgs as [|m msgs]; [done|]. simpl.
  destruct (decide _); intros ?; simplify_eq. simpl. by rewrite <-app_assoc.
Qed.

(** ** [characteristics] *)

Lemma characteristics_loop_enter chr infos msgs :
  Forall well_sized infos →
  characteristics_loop chr (found_events infos ++ msgs)
  = characteristics_loop (enter chr infos) msgs.
Proof.
  intros Hinfos. revert chr.
  induction Hinfos as [|[[h len] uuid] infos Hsize _ IH]; intros chr.
  - done.
  - unfold well_sized in Hsize. simpl in *.
    rewrite bool_decide_eq_false_2 by (by intros []). apply IH.
Qed.

Lemma enter_other chr infos (uuid : Buffer) :
  Forall (λ i : Z * Z * Buffer, i.2 ≠ uuid) infos →
  enter chr infos !! uuid = chr !! uuid.
Proof.
  intros Hinfos. revert chr.
  induction Hinfos as [|i infos Hne _ IH]; intros chr.
  - done.
  - change (enter (<[i.2 := i.1.1]> chr) infos !! uuid = chr !! uuid).
    rewrite IH. by apply lookup_insert_ne.
Qed.

(** C9: after the response to the command, information-found events
    whose declared length is the size of their UUID are entered in the
    mapping one after the other.  When a procedure-completed event follows
    them, [characteristics] returns the mapping built so far; when an
    information-found event follows whose declared length is not the size
    of its UUID, [characteristics] throws the [std::runtime_error] "UUID
    size does not match the expected value.".  In the mapping a UUID has
    the handle of the last event that carried it. *)
Theorem characteristics_maps_uuid_to_last_handle (g : GattClient)
    (infos : list (Z * Z * Buffer)) (tail : list Message) :
  incoming (client g) =
    [AttclientFindInformationResponse] ++ found_events infos ++ tail →
  Forall well_sized infos →
  (0 < writable (client g))%nat →
  (∀ rest, tail = AttclientProcedureCompletedEvent :: rest →
     ∃ g', characteristics g = (OK (enter ∅ infos), g')
           ∧ incoming (client g') = rest)
  ∧ (∀ chrhandle len uuid rest,
       tail = AttclientFindInformationFoundEvent chrhandle len uuid :: rest →
       len ≠ Z.of_nat (length uuid) →
       ∃ g', characteristics g =
               (Raise (runtime_error "UUID size does not match the expected value."),
                g'))
  ∧ (∀ before chrhandle len uuid after,
       infos = before ++ (chrhandle, len, uuid) :: after →
       Forall (λ i, i.2 ≠ uuid) after →
       enter ∅ infos !! uuid = Some chrhandle).
Proof.
  intros Hin Hinfos Hw.
  destruct g as [[inc snt w] cn ad c q]. simpl in *. subst inc.
  destruct w as [|w]; [lia|].
  split; [|split].
  - intros rest ->. eexists. unfold characteristics, characteristics_found. run.
    rewrite characteristics_loop_enter by done. simpl. done.
  - intros h len uuid rest -> Hlen. eexists.
    unfold characteristics, characteristics_found. run.
    rewrite characteristics_loop_enter by done. simpl.
    rewrite bool_decide_eq_true_2 by done. done.
  - intros before h len uuid after -> Hafter.
    unfold enter. rewrite fold_left_app. simpl.
    fold (enter (<[uuid := h]> (fold_left (λ chr i, <[i.2 := i.1.1]> chr) before ∅)) after).
    rewrite enter_other by done. apply lookup_insert_eq.
Qed.

Lemma characteristics_maps_uuid_to_last_handle_witness :
  let infos := [(3, 2, name_uuid); (17, 2, battery_uuid); (5, 2, name_uuid)] in
  let tail := [AttclientProcedureCompletedEvent] in
  let g := fresh ([AttclientFindInformationResponse] ++ found_events infos ++ tail) in
  (∀ rest, tail = AttclientProcedureCompletedEvent :: rest →
     ∃ g', characteristics g = (OK (enter ∅ infos), g')
           ∧ incoming (client g') = rest)
  ∧ (∀ chrhandle len uuid rest,
       tail = AttclientFindInformationFoundEvent chrhandle len uuid :: rest →
       len ≠ Z.of_nat (length uuid) →
       ∃ g', characteristics g =
               (Raise (runtime_error "UUID size does not match the expected value."),
                g'))
  ∧ (∀ before chrhandle len uuid after,
       infos = before ++ (chrhandle, len, uuid) :: after →
       Forall (λ i, i.2 ≠ uuid) after →
       enter ∅ infos !! uuid = Some chrhandle).
Proof.
  intros infos tail g.
  apply (characteristics_maps_uuid_to_last_handle g infos tail).
  - reflexivity.
  - repeat constructor.
  - simpl. lia.
Defined.

Example characteristics_size_mismatch_throws :
  (characteristics
     (fresh [AttclientFindInformationResponse;
             AttclientFindInformationFoundEvent 3 2 name_uuid;
             AttclientFindInformationFoundEvent 17 16 battery_uuid;
             AttclientProcedureCompletedEvent])).1
  = Raise (runtime_error "UUID size does not match the expected value.").
Proof. by vm_compute. Qed.

Example characteristics_last_write_wins :
  let infos := [(3, 2, name_uuid); (17, 2, battery_uuid); (5, 2, name_uuid)] in
  enter ∅ infos !! name_uuid = Some 5 ∧ enter ∅ infos !! battery_uuid = Some 17.
Proof. by vm_compute. Qed.

(** ** [print_address] and the parsing loop of [connect] *)

Lemma put_hex_w2_chars fill b :
  Stream.put_hex_w2 fill b = String (hex_hi fill b) (String (hex_lo b) "").
Proof.
  unfold Stream.put_hex_w2, hex_hi, hex_lo. by destruct (_ <? _)%N.
Qed.

Lemma uint8_of_int_of_uint8 b : uint8_of_int (int_of_uint8 b) = b.
Proof. by destruct b. Qed.







(** * Further properties of the driver *)

(** A run of [m ≫= f] whose first part returns. *)
Lemma bind_OK {A B} (m : M A) (f : A → M B) g a g1 :
  m g = (OK a, g1) → (m ≫= f) g = f a g1.
Proof. intros H. unfold mbind, M_bind. by rewrite H. Qed.

(** ** [connect]: opening a connection (lines 82-91) *)

(** The three slots report [others], none of them connected to [address]:
    the whole loop runs and leaves the driver as it was, three status
    queries later. *)
Lemma connect_revive_none (address : Address) (g : GattClient)
    (others : list Status.t) (rest : list Message) (n : nat) :
  length others = 3%nat →
  Forall (λ o, same_device address o = false) others →
  incoming (client g) = status_reports others ++ rest →
  writable (client g) = (3 + n)%nat →
  connect_revive address [0; 1; 2] g =
    (OK false, with_client {| incoming := rest;
                              sent := sent (client g) ++ status_queries 3;
                              writable := n |} g).
Proof.
  intros Hlen Hothers Hin Hw.
  destruct g as [[inc snt w] cn ad c q]. simpl in *. subst inc w.
  destruct others as [|[f0 a0] [|[f1 a1] [|[f2 a2] [|]]]]; try discriminate Hlen.
  apply Forall_cons in Hothers as [H0 Hothers].
  apply Forall_cons in Hothers as [H1 Hothers].
  apply Forall_cons in Hothers as [H2 _].
  simpl. run. rewrite H0. run. rewrite H1. run. rewrite H2. run.
  by rewrite <-!app_assoc.
Qed.

(** X1: when none of the three slots reports a connection to [address],
    [connect] sends the direct-connect command for [address] with the
    public address type, intervals 6 and 6, timeout 64 and latency 0, makes
    the slot of the response the active slot and, after one status event,
    sets [connected_] and stores [address].  What that status event says is
    not looked at. *)
Theorem connect_opens_new_connection (address : Address) (g : GattClient)
    (others : list Status.t) (slot : Z) (confirmation : Status.t)
    (rest : list Message) :
  length others = 3%nat →
  Forall (λ o, same_device address o = false) others →
  incoming (client g) =
    status_reports others
    ++ [GapConnectDirectResponse slot;
        ConnectionStatusEvent (Status.flags confirmation)
          (Status.address confirmation)]
    ++ rest →
  (4 ≤ writable (client g))%nat →
  ∃ g', connect address g = (OK tt, g')
        ∧ connected_ g' = true
        ∧ connection g' = slot
        ∧ address_ g' = address
        ∧ sent (client g') =
            sent (client g) ++ status_queries 3
            ++ [GapConnectDirect address AddressTypePublic 6 6 64 0]
        ∧ incoming (client g') = rest
        ∧ event_queue g' = event_queue g.
Proof.
  intros Hlen Hothers Hin Hw.
  destruct g as [[inc snt w] cn ad c q]. simpl in *.
  destruct w as [|[|[|[|n]]]]; [lia..|].
  eexists. unfold connect.
  erewrite bind_OK by (eapply (connect_revive_none _ _ _ _ (S n)); done).
  run. split; [done|]. by rewrite <-!app_assoc.
Qed.

Lemma connect_opens_new_connection_witness :
  let idle := Status.make 0 (replicate 6 x00) in
  let g := fresh (status_reports [idle; Status.make 1 stranger; idle]
                  ++ [GapConnectDirectResponse 2; ConnectionStatusEvent 0 stranger]) in
  ∃ g', connect myo g = (OK tt, g')
        ∧ connected_ g' = true
        ∧ connection g' = 2
        ∧ address_ g' = myo
        ∧ sent (client g') =
            [] ++ status_queries 3
            ++ [GapConnectDirect myo AddressTypePublic 6 6 64 0]
        ∧ incoming (client g') = []
        ∧ event_queue g' = [].
Proof.
  intros idle g.
  apply (connect_opens_new_connection myo g
           [idle; Status.make 1 stranger; idle] 2 (Status.make 0 stranger) []).
  - reflexivity.
  - repeat constructor.
  - reflexivity.
  - simpl. lia.
Defined.

(** ** A whole session: [connect], [writeAttribute], [disconnect()] *)

(** X2: a connection that [connect] opens on the slot the dongle assigns
    is the one the following calls speak to: [writeAttribute] and
    [disconnect()] put that slot into their commands.  [disconnect()] then
    reads the response and the disconnected event and clears [connected_],
    so that [address()] throws again although [address_] still holds the
    address. *)
Theorem session_uses_assigned_slot (address : Address) (g : GattClient)
    (others : list Status.t) (slot : Z) (confirmation : Status.t)
    (handle : Z) (payload : Buffer) (rest : list Message) :
  length others = 3%nat →
  Forall (λ o, same_device address o = false) others →
  incoming (client g) =
    status_reports others
    ++ [GapConnectDirectResponse slot;
        ConnectionStatusEvent (Status.flags confirmation)
          (Status.address confirmation);
        AttclientAttributeWriteResponse; AttclientProcedureCompletedEvent;
        ConnectionDisconnectResponse; ConnectionDisconnectedEvent]
    ++ rest →
  (6 ≤ writable (client g))%nat →
  ∃ g', (connect address;; writeAttribute handle payload;; disconnect_active) g
        = (OK tt, g')
        ∧ sent (client g') =
            sent (client g) ++ status_queries 3
            ++ [GapConnectDirect address AddressTypePublic 6 6 64 0;
                AttclientAttributeWrite slot handle
                  (Z.of_nat (length payload) mod 256) payload;
                ConnectionDisconnect slot]
        ∧ connected_ g' = false
        ∧ connection g' = slot
        ∧ address_ g' = address
        ∧ incoming (client g') = rest
        ∧ address_of g' =
            (Raise (logic_error
               "Connection is not established, no address available."), g').
Proof.
  intros Hlen Hothers Hin Hw.
  destruct g as [[inc snt w] cn ad c q]. simpl in *. subst inc.
  destruct w as [|[|[|[|[|[|n]]]]]]; [lia..|].
  destruct others as [|[f0 a0] [|[f1 a1] [|[f2 a2] [|]]]]; try discriminate Hlen.
  apply Forall_cons in Hothers as [H0 Hothers].
  apply Forall_cons in Hothers as [H1 Hothers].
  apply Forall_cons in Hothers as [H2 _].
  eexists. unfold connect, writeAttribute, disconnect_active, disconnect.
  simpl. run. rewrite H0. run. rewrite H1. run. rewrite H2. run.
  rewrite bool_decide_eq_true_2 by done. run.
  split; [done|]. by rewrite <-!app_assoc.
Qed.

Lemma session_uses_assigned_slot_witness :
  let idle := Status.make 0 (replicate 6 x00) in
  let g := fresh (status_reports [idle; idle; idle]
                  ++ [GapConnectDirectResponse 1; ConnectionStatusEvent 5 myo;
                      AttclientAttributeWriteResponse;
                      AttclientProcedureCompletedEvent;
                      ConnectionDisconnectResponse; ConnectionDisconnectedEvent]) in
  ∃ g', (connect myo;; writeAttribute 0x19 [x01; x03];; disconnect_active) g
        = (OK tt, g')
        ∧ sent (client g') =
            [] ++ status_queries 3
            ++ [GapConnectDirect myo AddressTypePublic 6 6 64 0;
                AttclientAttributeWrite 1 0x19 (2 mod 256) [x01; x03];
                ConnectionDisconnect 1]
        ∧ connected_ g' = false
        ∧ connection g' = 1
        ∧ address_ g' = myo
        ∧ incoming (client g') = []
        ∧ address_of g' =
            (Raise (logic_error
               "Connection is not established, no address available."), g').
Proof.
  intros idle g.
  apply (session_uses_assigned_slot myo g [idle; idle; idle] 1
           (Status.make 5 myo) 0x19 [x01; x03] []).
  - reflexivity.
  - repeat constructor.
  - reflexivity.
  - simpl. lia.
Defined.

(** ** [disconnect(slot)] and [disconnect()] (lines 129-143) *)

(** X3: whatever the transport delivers, a [disconnect(slot)] that returns
    has sent the one command [ConnectionDisconnect slot] and has cleared
    [connected_] if [slot] is the active slot; for any other slot
    [connected_] is as before.  A [disconnect()] that returns has sent
    the command for the active slot and always leaves the driver
    disconnected, so that [address()] throws. *)
Theorem disconnect_clears_only_active_slot (g g' : GattClient) :
  (∀ slot,
     disconnect slot g = (OK tt, g') →
     sent (client g') = sent (client g) ++ [ConnectionDisconnect slot]
     ∧ connection g' = connection g
     ∧ (slot = connection g → connected_ g' = false)
     ∧ (slot ≠ connection g → connected_ g' = connected_ g))
  ∧ (disconnect_active g = (OK tt, g') →
     sent (client g') = sent (client g) ++ [ConnectionDisconnect (connection g)]
     ∧ connection g' = connection g
     ∧ connected_ g' = false
     ∧ address_of g' =
         (Raise (logic_error
            "Connection is not established, no address available."), g')).
Proof.
  assert (∀ slot, disconnect slot g = (OK tt, g') →
            sent (client g') = sent (client g) ++ [ConnectionDisconnect slot]
            ∧ connection g' = connection g
            ∧ (slot = connection g → connected_ g' = false)
            ∧ (slot ≠ connection g → connected_ g' = connected_ g)) as Hslot.
  { intros slot H. apply disconnect_returns in H as (Hs & Hc & Hf).
    split_and!; [done | done | |].
    - intros ->. rewrite Hf, bool_decide_eq_true_2 by done.
      by destruct (connected_ g).
    - intros Hne. rewrite Hf, bool_decide_eq_false_2 by done.
      by destruct (connected_ g). }
  split; [done|].
  intros H. unfold disconnect_active in H. step H g0 g0' H0.
  injection H0 as <- <-.
  destruct (Hslot _ H) as (Hs & Hc & Hf & _).
  split_and!; [done | done | by apply Hf |].
  unfold address_of. run. by rewrite Hf.
Qed.

Lemma disconnect_clears_only_active_slot_witness :
  let g := with_connection 2 (with_connected true
             (fresh [ConnectionDisconnectResponse; ConnectionDisconnectedEvent])) in
  let g' := (disconnect_active g).2 in
  sent (client g') = [] ++ [ConnectionDisconnect 2]
  ∧ connection g' = 2
  ∧ connected_ g' = false
  ∧ address_of g' =
      (Raise (logic_error
         "Connection is not established, no address available."), g').
Proof.
  intros g g'.
  apply (proj2 (disconnect_clears_only_active_slot g g')).
  reflexivity.
Defined.

(** X4: a driver that was not connected and has adopted a live slot in
    [connect] still has [connected_] false, so its [disconnect()] sends
    the command for that slot and reads the response only: what the dongle
    sends after the response, the disconnected event for one, stays in the
    transport. *)
Theorem disconnect_after_revival_reads_response_only (address : Address)
    (g : GattClient) (others : list Status.t) (s : Status.t)
    (rest : list Message) :
  connected_ g = false →
  (length others < 3)%nat →
  Forall (λ o, same_device address o = false) others →
  same_device address s = true →
  incoming (client g) =
    status_reports (others ++ [s]) ++ [ConnectionDisconnectResponse] ++ rest →
  (S (length others) < writable (client g))%nat →
  ∃ g', (connect address;; disconnect_active) g = (OK tt, g')
        ∧ sent (client g') =
            sent (client g) ++ status_queries (S (length others))
            ++ [ConnectionDisconnect (Z.of_nat (length others))]
        ∧ incoming (client g') = rest
        ∧ connected_ g' = false.
Proof.
  intros Hcn Hslots Hothers Hs Hin Hw.
  destruct g as [[inc snt w] cn ad c q]. simpl in *. subst cn inc.
  destruct (w - S (length others))%nat as [|n] eqn:Hn; [lia|].
  eexists.
  erewrite bind_OK
    by (eapply connect_revives; [done | done | done | reflexivity | simpl; lia]).
  unfold disconnect_active, disconnect, revived. run. rewrite Hn. run.
  split; [done|]. by rewrite <-app_assoc.
Qed.

Lemma disconnect_after_revival_reads_response_only_witness :
  let g := fresh (slot1_alive
                  ++ [ConnectionDisconnectResponse; ConnectionDisconnectedEvent]) in
  ∃ g', (connect myo;; disconnect_active) g = (OK tt, g')
        ∧ sent (client g') =
            [] ++ status_queries 2 ++ [ConnectionDisconnect 1]
        ∧ incoming (client g') = [ConnectionDisconnectedEvent]
        ∧ connected_ g' = false.
Proof.
  intros g.
  apply (disconnect_after_revival_reads_response_only myo g
           [Status.make 0 (replicate 6 x00)] (Status.make 1 myo)
           [ConnectionDisconnectedEvent]).
  - reflexivity.
  - simpl. lia.
  - repeat constructor.
  - reflexivity.
  - reflexivity.
  - simpl. lia.
Defined.

(** ** [writeAttribute] (lines 152-157) *)

(** X5: [writeAttribute] sends the whole payload together with its size
    reduced modulo 256, the [static_cast<std::uint8_t>] of line 154: the
    length in the command is [size mod 256], so it is the size of the
    payload exactly when the payload has fewer than 256 bytes, and nothing
    checks it.  The call returns after the response and the
    procedure-completed event; events that arrive before either of them
    are appended to [event_queue]. *)
Theorem writeAttribute_sends_size_modulo_256 (handle : Z) (payload : Buffer)
    (g : GattClient) (early between : list (Z * Z * Buffer))
    (rest : list Message) :
  incoming (client g) =
    value_events early ++ [AttclientAttributeWriteResponse]
    ++ value_events between ++ [AttclientProcedureCompletedEvent] ++ rest →
  (0 < writable (client g))%nat →
  ∃ g' len,
    writeAttribute handle payload g = (OK tt, g')
    ∧ sent (client g') =
        sent (client g)
        ++ [AttclientAttributeWrite (connection g) handle len payload]
    ∧ len = Z.of_nat (length payload) mod 256
    ∧ 0 ≤ len < 256
    ∧ (len = Z.of_nat (length payload) ↔ (length payload < 256)%nat)
    ∧ incoming (client g') = rest
    ∧ event_queue g' = event_queue g ++ buffered early ++ buffered between.
Proof.
  intros Hin Hw.
  destruct g as [[inc snt w] cn ad c q]. simpl in *. subst inc.
  destruct w as [|w]; [lia|].
  exists (with_event_queue (q ++ buffered early ++ buffered between)
            (with_client
               {| incoming := rest;
                  sent := snt ++ [AttclientAttributeWrite c handle
                                    (Z.of_nat (length payload) mod 256) payload];
                  writable := w |}
               {| client := {| incoming := []; sent := snt; writable := S w |};
                  connected_ := cn; address_ := ad; connection := c;
                  event_queue := q |})),
         (Z.of_nat (length payload) mod 256).
  split_and!; try done.
  - unfold writeAttribute. run.
    rewrite await_value_events by (by apply plain_response_view). run.
    rewrite await_value_events by (by apply plain_response_view). run.
    by rewrite <-app_assoc.
  - apply Z.mod_pos_bound. lia.
  - apply Z.mod_pos_bound. lia.
  - split.
    + intros Heq. pose proof (Z.mod_pos_bound (Z.of_nat (length payload)) 256).
      lia.
    + intros Hlt. apply Z.mod_small. lia.
Qed.

Lemma writeAttribute_sends_size_modulo_256_witness :
  let payload : Buffer := replicate 258 x2a in
  let g := fresh [AttclientAttributeWriteResponse;
                  AttclientAttributeValueEvent 0x30 1 [x07];
                  AttclientProcedureCompletedEvent] in
  ∃ g' len,
    writeAttribute 0x19 payload g = (OK tt, g')
    ∧ sent (client g') = [] ++ [AttclientAttributeWrite 0 0x19 len payload]
    ∧ len = 258 mod 256
    ∧ 0 ≤ len < 256
    ∧ (len = Z.of_nat (length payload) ↔ (length payload < 256)%nat)
    ∧ incoming (client g') = []
    ∧ event_queue g' = [] ++ buffered [] ++ buffered [(0x30, 1, [x07])].
Proof.
  intros payload g.
  apply (writeAttribute_sends_size_modulo_256 0x19 payload g
           [] [(0x30, 1, [x07])] []).
  - reflexivity.
  - simpl. lia.
Defined.

Example writeAttribute_truncates_long_payload :
  sent (client
    (writeAttribute 0x19 (replicate 258 x2a)
       (fresh [AttclientAttributeWriteResponse;
               AttclientProcedureCompletedEvent])).2)
  = [AttclientAttributeWrite 0 0x19 2 (replicate 258 x2a)].
Proof. by vm_compute. Qed.

(** ** What the attribute operations leave alone *)

Lemma readAttribute_retry_inv handle msgs queue r msgs' queue' :
  readAttribute_retry handle msgs queue = (r, msgs', queue') →
  queue `prefix_of` queue' ∧ msgs' `suffix_of` msgs.
Proof.
  revert queue. induction msgs as [|m msgs IH]; intros queue; simpl.
  - by intros [= <- <- <-].
  - destruct m; try (intros [= <- <- <-]; split; [done | by apply suffix_cons_r]).
    repeat case_bool_decide.
    + intros H'. apply IH in H' as [Hq Hm]. split.
      * etrans; [|done]. by apply prefix_app_r.
      * by apply suffix_cons_r.
    + intros [= <- <- <-]. split; [done | by apply suffix_cons_r].
    + intros [= <- <- <-]. split; [done | by apply suffix_cons_r].
Qed.

(** X6: whatever it returns or throws, none of [readAttribute],
    [writeAttribute] and [characteristics] changes [connected_],
    [address_] or [connection]; none of them takes an event out of
    [event_queue] (it grows at its end at most), and [characteristics]
    does not touch it at all. *)
Theorem attribute_operations_keep_connection_state (g g' : GattClient) :
  (∀ handle r, readAttribute handle g = (r, g') → undisturbed g g')
  ∧ (∀ handle payload r,
       writeAttribute handle payload g = (r, g') → undisturbed g g')
  ∧ (∀ r, characteristics g = (r, g') →
          undisturbed g g' ∧ event_queue g' = event_queue g).
Proof.
  split_and!.
  - intros handle r H. unfold readAttribute in H.
    step H g0 g0' H0. injection H0 as <- <-.
    step H sent_ g1 H1; [|frame].
    step H ack g2 H2; [|frame].
    assert (undisturbed g2 g'); [|frame].
    unfold readAttribute_value in H.
    destruct (readAttribute_retry _ _ _) as [[r0 msgs] queue] eqn:Hretry.
    injection H as _ <-. apply readAttribute_retry_inv in Hretry as []. by split.
  - intros handle payload r H. unfold writeAttribute in H.
    step H g0 g0' H0. injection H0 as <- <-.
    step H sent_ g1 H1; [|frame].
    step H ack g2 H2; [|frame].
    frame.
  - intros r H. unfold characteristics in H.
    step H g0 g0' H0. injection H0 as <- <-.
    assert (∀ g2 r2, characteristics_found g2 = (r2, g') →
              undisturbed g2 g' ∧ event_queue g' = event_queue g2) as Hfound.
    { intros g2 r2 Hf. unfold characteristics_found in Hf.
      destruct (characteristics_loop _ _) as [r0 msgs] eqn:Hloop.
      injection Hf as _ <-. apply characteristics_loop_suffix in Hloop.
      by split. }
    unfold client_write, Bled112Client_write, client_read in H.
    unfold mbind, M_bind in H.
    destruct (writable (client g)) as [|n]; [by simplify_eq|]. simpl in H.
    destruct (incoming (client g)) as [|m msgs] eqn:Hin;
      [simplify_eq; split; [split|]; simpl; try done; by rewrite Hin|].
    destruct (plain _ m).
    + apply Hfound in H as [[] Hq]. simpl in *.
      split; [split|]; try done. rewrite Hin. by apply suffix_cons_r.
    + simplify_eq. split; [split|]; simpl; try done.
      rewrite Hin. by apply suffix_cons_r.
Qed.

Lemma attribute_operations_keep_connection_state_witness :
  let g := with_connection 1 (with_connected true (fresh notified_first)) in
  undisturbed g (readAttribute 0x002A g).2.
Proof.
  intros g.
  apply (proj1 (attribute_operations_keep_connection_state g _) 0x002A
           (readAttribute 0x002A g).1).
  by vm_compute.
Defined.

(** ** [listen] (lines 179-191) *)

(** X7: whatever the transport delivers and whether the read succeeds or
    throws, [listen] has called the callback on every buffered event, in
    order, and has emptied [event_queue] before it reads; it makes at most
    one call more, for an attribute-value event at the head of the
    transport.  It sends nothing and leaves the connection state alone. *)
Theorem listen_always_drains_buffer {U} (callback : NotificationCallback U)
    (u u' : U) (g g' : GattClient) (r : result unit) :
  listen callback u g = (r, u', g') →
  event_queue g' = []
  ∧ sent (client g') = sent (client g)
  ∧ connected_ g' = connected_ g
  ∧ connection g' = connection g
  ∧ address_ g' = address_ g
  ∧ (u' = deliver callback (event_queue g) u
     ∨ ∃ atthandle len data rest,
         incoming (client g) =
           AttclientAttributeValueEvent atthandle len data :: rest
         ∧ r = OK tt
         ∧ u' = callback (deliver callback (event_queue g) u) atthandle data).
Proof.
  unfold listen. simpl.
  destruct (incoming (client g)) as [|m msgs] eqn:Hin; simpl.
  - intros ?. simplify_eq. split_and!; try done. by left.
  - destruct m; intros ?; simplify_eq; split_and!; try done; try by left.
    right. eauto 10.
Qed.

Lemma listen_always_drains_buffer_witness :
  let g := with_event_queue [(0x30, [x07]); (0x31, [x09])] (fresh []) in
  let out := listen record [] g in
  event_queue out.2 = []
  ∧ sent (client out.2) = sent (client g)
  ∧ connected_ out.2 = connected_ g
  ∧ connection out.2 = connection g
  ∧ address_ out.2 = address_ g
  ∧ (out.1.2 = deliver record (event_queue g) []
     ∨ ∃ atthandle len data rest,
         incoming (client g) =
           AttclientAttributeValueEvent atthandle len data :: rest
         ∧ out.1.1 = OK tt
         ∧ out.1.2 = record (deliver record (event_queue g) []) atthandle data).
Proof.
  intros g out.
  apply (listen_always_drains_buffer record [] out.1.2 g out.2 out.1.1).
  reflexivity.
Defined.

(** X8: two calls of [listen] in a row deliver every event once: the
    first call delivers the buffered events and one live event, the second
    call finds [event_queue] empty and delivers the next live event
    only. *)
Theorem listen_twice_delivers_once {U} (callback : NotificationCallback U)
    (u : U) (g : GattClient) (live1 live2 : Z * Z * Buffer)
    (rest : list Message) :
  incoming (client g) = value_events [live1; live2] ++ rest →
  ∃ u1 g1 g2,
    listen callback u g = (OK tt, u1, g1)
    ∧ u1 = deliver callback (event_queue g ++ buffered [live1]) u
    ∧ listen callback u1 g1 =
        (OK tt, callback u1 live2.1.1 live2.2, g2)
    ∧ callback u1 live2.1.1 live2.2
      = deliver callback (event_queue g ++ buffered [live1; live2]) u
    ∧ event_queue g2 = []
    ∧ incoming (client g2) = rest.
Proof.
  intros Hin. destruct g as [[inc snt w] cn ad c q]. simpl in *. subst inc.
  eexists _, _, _. split_and!; [done | | done | | done | done].
  - by rewrite deliver_app.
  - by rewrite !deliver_app.
Qed.

Lemma listen_twice_delivers_once_witness :
  let g := with_event_queue [(0x30, [x07])]
             (fresh (value_events [(0x31, 1, [x09]); (0x32, 1, [x0b])])) in
  ∃ u1 g1 g2,
    listen record [] g = (OK tt, u1, g1)
    ∧ u1 = deliver record (event_queue g ++ buffered [(0x31, 1, [x09])]) []
    ∧ listen record u1 g1 = (OK tt, record u1 0x32 [x0b], g2)
    ∧ record u1 0x32 [x0b]
      = deliver record
          (event_queue g ++ buffered [(0x31, 1, [x09]); (0x32, 1, [x0b])]) []
    ∧ event_queue g2 = []
    ∧ incoming (client g2) = [].
Proof.
  intros g.
  apply (listen_twice_delivers_once record [] g
           (0x31, 1, [x09]) (0x32, 1, [x0b]) []).
  reflexivity.
Defined.

(** X9: when the answer to [readAttribute] declares a wrong length the
    call throws, but the events buffered before the answer stay in
    [event_queue]: the next [listen] delivers them, in order, before the
    live event.  The answer itself is neither returned nor buffered. *)
Theorem buffered_events_survive_failed_read {U}
    (callback : NotificationCallback U) (u : U) (g : GattClient) (handle : Z)
    (early late : list (Z * Z * Buffer)) (len : Z) (data : Buffer)
    (live : Z * Z * Buffer) (rest : list Message) :
  incoming (client g) =
    value_events early ++ [AttclientReadByHandleResponse] ++ value_events late
    ++ [AttclientAttributeValueEvent handle len data]
    ++ (value_events [live] ++ rest) →
  Forall (λ ev, ev.1.1 ≠ handle) late →
  len ≠ Z.of_nat (length data) →
  (0 < writable (client g))%nat →
  ∃ g1 g2,
    readAttribute handle g =
      (Raise (runtime_error "Data length does not match the expected value."), g1)
    ∧ event_queue g1 = event_queue g ++ buffered early ++ buffered late
    ∧ listen callback u g1 =
        (OK tt,
         deliver callback
           (event_queue g ++ buffered early ++ buffered late ++ buffered [live]) u,
         g2)
    ∧ event_queue g2 = []
    ∧ incoming (client g2) = rest.
Proof.
  intros Hin Hlate Hlen Hw.
  destruct (writable (client g)) as [|n] eqn:Hn; [lia|].
  eexists _, _. split_and!.
  - rewrite (readAttribute_answered _ _ _ _ _ _ _ _ Hin Hlate Hn).
    by rewrite bool_decide_eq_true_2.
  - done.
  - unfold listen. simpl. by rewrite !app_assoc, !deliver_app.
  - done.
  - done.
Qed.

Lemma buffered_events_survive_failed_read_witness :
  let g := fresh [AttclientReadByHandleResponse;
                  AttclientAttributeValueEvent 0x0030 1 [x07];
                  AttclientAttributeValueEvent 0x002A 3 [x01; x02];
                  AttclientAttributeValueEvent 0x0031 1 [x09]] in
  ∃ g1 g2,
    readAttribute 0x002A g =
      (Raise (runtime_error "Data length does not match the expected value."), g1)
    ∧ event_queue g1 = [] ++ buffered [] ++ buffered [(0x0030, 1, [x07])]
    ∧ listen record [] g1 =
        (OK tt,
         deliver record
           ([] ++ buffered [] ++ buffered [(0x0030, 1, [x07])]
            ++ buffered [(0x0031, 1, [x09])]) [],
         g2)
    ∧ event_queue g2 = []
    ∧ incoming (client g2) = [].
Proof.
  intros g.
  apply (buffered_events_survive_failed_read record [] g 0x002A
           [] [(0x0030, 1, [x07])] 3 [x01; x02] (0x0031, 1, [x09]) []).
  - reflexivity.
  - repeat constructor. simpl. lia.
  - simpl. lia.
  - simpl. lia.
Defined.

(** ** [discover]: a scan that is not stopped (lines 53-58) *)

Lemma discover_loop_exhausted {U} (callback : DeviceCallback U) u u1 msgs :
  keeps_scanning callback u msgs = Some u1 →
  discover_loop callback u msgs = (Raise no_message, u1, []).
Proof.
  intros H. rewrite <-(app_nil_r msgs).
  by rewrite (discover_loop_keeps_scanning _ _ _ _ _ H).
Qed.

(** X10: when the callback answers [true] to every scan response that
    arrives and the transport then fails, [discover] throws out of its
    loop: the callback has been called on every scan response, and
    [GapDiscover] is the only command sent, so the scan is not ended. *)
Theorem discover_failure_leaves_scan_running {U} (callback : DeviceCallback U)
    (u u1 : U) (g : GattClient) :
  keeps_scanning callback u (incoming (client g)) = Some u1 →
  (0 < writable (client g))%nat →
  ∃ g', discover callback u g = (Raise no_message, u1, g')
        ∧ sent (client g') = sent (client g) ++ [GapDiscover DiscoverGeneric]
        ∧ incoming (client g') = [].
Proof.
  intros Hscan Hw.
  destruct g as [[inc snt w] cn ad c q]. simpl in *.
  destruct w as [|w]; [lia|].
  eexists. unfold discover. run. rewrite (discover_loop_exhausted _ _ _ _ Hscan).
  by split_and!.
Qed.

Lemma discover_failure_leaves_scan_running_witness :
  let g := fresh [GapDiscoverResponse;
                  GapScanResponseEvent (-70) stranger [];
                  GapScanResponseEvent (-71) stranger [x02]] in
  ∃ g', discover (until myo) [] g = (Raise no_message, [stranger; stranger], g')
        ∧ sent (client g') = [] ++ [GapDiscover DiscoverGeneric]
        ∧ incoming (client g') = [].
Proof.
  intros g.
  apply (discover_failure_leaves_scan_running (until myo) [] [stranger; stranger] g).
  - reflexivity.
  - simpl. lia.
Defined.

(** ** The parsing loop of [connect(const std::string &)] (lines 96-110) *)

(** A printed group is read back up to whatever ends the run of digits,
    unless that makes a [0x] prefix out of a single zero. *)
Lemma extract_hex_group_until fill b tail value :
  fill = " "%char ∨ fill = "0"%char →
  Stream.take_hex tail = ([], tail) →
  Stream.strip_0x (String "0" tail) = String "0" tail →
  Stream.extract_hex
    {| Stream.buf := String (hex_hi fill b) (String (hex_lo b) tail);
       Stream.failbit := false |} value
  = ({| Stream.buf := tail; Stream.failbit := false |}, int_of_uint8 b).
Proof.
  intros Hfill Htail Hx. simpl in Hx.
  destruct Hfill as [-> | ->]; destruct b;
    unfold Stream.extract_hex, hex_hi, hex_lo; simpl;
    try change (Stream.hex_char 0) with "0"%char;
    rewrite ?Hx; simpl; rewrite Htail; reflexivity.
Qed.

Lemma ends_group_colon : ends_group ":".
Proof. by split_and!. Qed.

Lemma take_hex_ends_group c rest :
  ends_group c → Stream.take_hex (String c rest) = ([], String c rest).
Proof. intros [Hc _]. simpl. by rewrite Hc. Qed.

Lemma strip_0x_ends_group c rest :
  ends_group c →
  Stream.strip_0x (String "0" (String c rest)) = String "0" (String c rest).
Proof.
  intros (_ & _ & Hx & HX).
  destruct c as [[] [] [] [] [] [] [] []]; try done.
Qed.

Lemma extract_char_ends_group c rest delimiter :
  ends_group c →
  Stream.extract_char {| Stream.buf := String c rest; Stream.failbit := false |}
    delimiter
  = ({| Stream.buf := rest; Stream.failbit := false |}, c).
Proof.
  intros (_ & Hspace & _). unfold Stream.extract_char. simpl. by rewrite Hspace.
Qed.

(** The first rounds of the loop on a text that begins with the groups
    [bs], each followed by a colon. *)
Lemma parse_groups_colon_groups build fill bs idx text address left :
  fill = " "%char ∨ fill = "0"%char →
  length bs = length idx →
  ∃ address' left',
    (∀ rest' : list nat,
       parse_groups build (idx ++ rest')
         {| Stream.buf := colon_groups fill bs +:+ text; Stream.failbit := false |}
         address left
       = parse_groups build rest'
           {| Stream.buf := text; Stream.failbit := false |} address' left')
    ∧ address' = foldl (λ a ib, <[ib.1 := ib.2]> a) address (zip idx bs).
Proof.
  intros Hfill. revert idx address left.
  induction bs as [|b bs IH]; intros [|i idx] address left Hlen;
    try discriminate Hlen.
  - by eexists _, _.
  - injection Hlen as Hlen.
    destruct (IH idx (<[i := b]> address)
                {| stale_value := int_of_uint8 b; stale_delimiter := ":" |} Hlen)
      as (address' & left' & Hrun & ->).
    eexists _, _. split; [|done]. intros rest'. simpl.
    rewrite put_hex_w2_chars. cbv [String.append]. fold String.append.
    rewrite extract_hex_group_until;
      [| done | by apply take_hex_ends_group, ends_group_colon
       | by apply strip_0x_ends_group, ends_group_colon].
    rewrite extract_char_ends_group by apply ends_group_colon.
    rewrite bool_decide_eq_false_2 by (by intros []).
    rewrite uint8_of_int_of_uint8. apply Hrun.
Qed.

(** The loop reads back six printed groups when every group, the sixth
    too, is followed by a colon; whatever follows the sixth colon is
    ignored. *)
Lemma parse_reads_six_colon_terminated_groups (build : Build) (before : Stale)
    (fill : ascii) (a : Address) (text : string) :
  valid_address a →
  fill = " "%char ∨ fill = "0"%char →
  parse_address build before (colon_groups fill (rev a) +:+ text) = OK a.
Proof.
  intros Hlen Hfill.
  destruct a as [|b0 [|b1 [|b2 [|b3 [|b4 [|b5 [|]]]]]]]; try discriminate Hlen.
  unfold parse_address, Stream.open.
  destruct (parse_groups_colon_groups build fill (rev [b0; b1; b2; b3; b4; b5])
              (countdown 6) text (replicate 6 x00) before Hfill eq_refl)
    as (address' & left' & Hrun & ->).
  specialize (Hrun []). rewrite app_nil_r in Hrun. by rewrite Hrun.
Qed.

(** X11: what [print_address] writes for an address, 17 characters and
    a line feed, is read back by the loop of [connect] as that address once
    a colon stands after the 17 characters, whether the groups are padded
    with blanks or with zeros.  This holds whatever the two variables hold
    when a round is entered: nothing uninitialised is read.  Whatever
    follows the colon is ignored, and [connect] on that text is [connect]
    on the address. *)
Theorem printed_address_parses_with_colon (build : Build) (before : Stale)
    (fill : ascii) (a : Address) (text : string) (g : GattClient) :
  valid_address a →
  fill = " "%char ∨ fill = "0"%char →
  let printed := print_bytes fill a (countdown (length a)) in
  print_address fill a = printed +:+ Stream.endl
  ∧ String.length printed = 17%nat
  ∧ parse_address build before (printed +:+ ":" +:+ text) = OK a
  ∧ connect_string build before (printed +:+ ":" +:+ text) g = connect a g.
Proof.
  intros Hlen Hfill printed.
  assert (printed +:+ ":" +:+ text = colon_groups fill (rev a) +:+ text
          ∧ String.length printed = 17%nat) as [Htext Hsize].
  { subst printed.
    destruct a as [|b0 [|b1 [|b2 [|b3 [|b4 [|b5 [|]]]]]]]; try discriminate Hlen.
    simpl. rewrite !put_hex_w2_chars. by cbv [String.append String.length]. }
  assert (parse_address build before (printed +:+ ":" +:+ text) = OK a) as Hparse.
  { rewrite Htext. by apply parse_reads_six_colon_terminated_groups. }
  split_and!; [done | done | done |].
  unfold connect_string. by rewrite Hparse.
Qed.

Lemma printed_address_parses_with_colon_witness :
  let printed := print_bytes " " myo (countdown (length myo)) in
  print_address " " myo = printed +:+ Stream.endl
  ∧ String.length printed = 17%nat
  ∧ parse_address reused leftover (printed +:+ ":" +:+ Stream.endl) = OK myo
  ∧ connect_string reused leftover (printed +:+ ":" +:+ Stream.endl)
      (fresh slot1_alive)
    = connect myo (fresh slot1_alive).
Proof.
  apply (printed_address_parses_with_colon reused leftover " " myo Stream.endl
           (fresh slot1_alive)).
  - reflexivity.
  - by left.
Defined.

(** X12: a text in which one of the six groups is followed by something
    else than a colon (a character that is no digit, no blank and no [x])
    makes [connect] throw "Unexpected delimiter" before anything is sent:
    the driver is as it was. *)
Theorem connect_string_rejects_other_delimiter (build : Build)
    (before : Stale) (fill : ascii) (bs : list byte) (b : byte) (c : ascii)
    (rest : string) (g : GattClient) :
  fill = " "%char ∨ fill = "0"%char →
  (length bs < 6)%nat →
  ends_group c →
  c ≠ ":"%char →
  connect_string build before
    (colon_groups fill bs +:+ Stream.put_hex_w2 fill b +:+ String c rest) g
  = (Raise (runtime_error "Unexpected delimiter"), g).
Proof.
  intros Hfill Hlen Hc Hne. unfold connect_string, parse_address, Stream.open.
  assert (∃ i idx', countdown 6 = take (length bs) (countdown 6) ++ i :: idx')
    as (i & idx' & Hidx).
  { destruct (length bs) as [|[|[|[|[|[|n]]]]]]; [by eexists _, _..|lia]. }
  rewrite Hidx.
  destruct (parse_groups_colon_groups build fill bs
              (take (length bs) (countdown 6))
              (Stream.put_hex_w2 fill b +:+ String c rest) (replicate 6 x00)
              before Hfill)
    as (address' & left' & Hrun & _).
  { rewrite length_take. change (length (countdown 6)) with 6%nat. lia. }
  rewrite Hrun. simpl.
  rewrite put_hex_w2_chars. cbv [String.append].
  rewrite extract_hex_group_until;
    [| done | by apply take_hex_ends_group | by apply strip_0x_ends_group].
  rewrite extract_char_ends_group by done.
  by rewrite bool_decide_eq_true_2.
Qed.

Lemma connect_string_rejects_other_delimiter_witness :
  connect_string reused leftover "01:02-03-04-05-06" (fresh [])
  = (Raise (runtime_error "Unexpected delimiter"), fresh []).
Proof.
  apply (connect_string_rejects_other_delimiter reused leftover "0" [x01] x02 "-"
           "03-04-05-06" (fresh [])).
  - by right.
  - simpl. lia.
  - by split_and!.
  - discriminate.
Defined.

(** ** [characteristics]: the keys of the mapping (lines 193-220) *)

Lemma enter_cons chr i infos :
  enter chr (i :: infos) = enter (<[i.2 := i.1.1]> chr) infos.
Proof. done. Qed.

Lemma enter_lookup_None chr infos (uuid : Buffer) :
  enter chr infos !! uuid = None
  ↔ chr !! uuid = None ∧ Forall (λ i : Z * Z * Buffer, i.2 ≠ uuid) infos.
Proof.
  revert chr. induction infos as [|i infos IH]; intros chr.
  - split; [by intros ?; split | by intros []].
  - rewrite enter_cons, IH, Forall_cons. rewrite lookup_insert_None. tauto.
Qed.

Lemma enter_lookup_Some chr infos (uuid : Buffer) chrhandle :
  enter chr infos !! uuid = Some chrhandle →
  chr !! uuid = Some chrhandle ∨ ∃ len, (chrhandle, len, uuid) ∈ infos.
Proof.
  revert chr. induction infos as [|[[h len] u] infos IH]; intros chr.
  - by left.
  - rewrite enter_cons. intros H. apply IH in H as [H | [len' H]].
    + simpl in H. apply lookup_insert_Some in H as [[-> ->] | [_ H]].
      * right. exists len. by left.
      * by left.
    + right. exists len'. by right.
Qed.

Lemma enter_size chr infos :
  (size (enter chr infos) ≤ size chr + length infos)%nat.
Proof.
  revert chr. induction infos as [|i infos IH]; intros chr.
  - simpl. lia.
  - rewrite enter_cons. etrans; [apply IH|]. simpl.
    destruct (chr !! i.2) eqn:Hi.
    + rewrite map_size_insert_Some by done. lia.
    + rewrite map_size_insert_None by done. lia.
Qed.

(** X13: the mapping that [characteristics] returns has an entry for a
    UUID exactly when an information-found event carried that UUID, the
    handle of an entry is the handle of such an event, and there are at
    most as many entries as events: with no event the mapping is empty.
    The one command sent asks for the handles [0x0001] to [0xFFFF] on the
    active slot. *)
Theorem characteristics_keys_are_the_uuids_found (g : GattClient)
    (infos : list (Z * Z * Buffer)) (rest : list Message) :
  incoming (client g) =
    [AttclientFindInformationResponse] ++ found_events infos
    ++ [AttclientProcedureCompletedEvent] ++ rest →
  Forall well_sized infos →
  (0 < writable (client g))%nat →
  ∃ chr g',
    characteristics g = (OK chr, g')
    ∧ sent (client g') =
        sent (client g) ++ [AttclientFindInformation (connection g) 1 65535]
    ∧ (∀ uuid : Buffer, chr !! uuid = None ↔ Forall (λ i, i.2 ≠ uuid) infos)
    ∧ (∀ (uuid : Buffer) chrhandle,
         chr !! uuid = Some chrhandle → ∃ len, (chrhandle, len, uuid) ∈ infos)
    ∧ (size chr ≤ length infos)%nat.
Proof.
  intros Hin Hinfos Hw.
  destruct g as [[inc snt w] cn ad c q]. simpl in *. subst inc.
  destruct w as [|w]; [lia|].
  exists (enter ∅ infos). eexists. split_and!.
  - unfold characteristics, characteristics_found. run.
    rewrite characteristics_loop_enter by done. simpl. done.
  - done.
  - intros uuid. rewrite enter_lookup_None. rewrite lookup_empty.
    split; [by intros [_ ?] | by split].
  - intros uuid h H. apply enter_lookup_Some in H as [H | H]; [|done].
    by rewrite lookup_empty in H.
  - etrans; [apply enter_size|]. by rewrite map_size_empty.
Qed.

Lemma characteristics_keys_are_the_uuids_found_witness :
  let infos := [(3, 2, name_uuid); (17, 2, battery_uuid); (5, 2, name_uuid)] in
  let g := fresh ([AttclientFindInformationResponse] ++ found_events infos
                  ++ [AttclientProcedureCompletedEvent]) in
  ∃ chr g',
    characteristics g = (OK chr, g')
    ∧ sent (client g') = [] ++ [AttclientFindInformation 0 1 65535]
    ∧ (∀ uuid : Buffer, chr !! uuid = None ↔ Forall (λ i, i.2 ≠ uuid) infos)
    ∧ (∀ (uuid : Buffer) chrhandle,
         chr !! uuid = Some chrhandle → ∃ len, (chrhandle, len, uuid) ∈ infos)
    ∧ (size chr ≤ length infos)%nat.
Proof.
  intros infos g.
  apply (characteristics_keys_are_the_uuids_found g infos []).
  - reflexivity.
  - repeat constructor.
  - simpl. lia.
Defined.

(** ** [discover]: what it leaves alone (lines 35-59) *)

Lemma discover_loop_suffix {U} (callback : DeviceCallback U) u msgs r u' msgs' :
  discover_loop callback u msgs = (r, u', msgs') → msgs' `suffix_of` msgs.
Proof.
  revert u. induction msgs as [|m msgs IH]; intros u; simpl.
  - intros ?. by simplify_eq.
  - destruct m; try (intros H; apply IH in H; by apply suffix_cons_r).
    destruct (callback u rssi sender data) as [[] u1].
    + intros H. apply IH in H. by apply suffix_cons_r.
    + intros ?. simplify_eq. by apply suffix_cons_r.
Qed.

(** X14: whatever it returns or throws, [discover] changes nothing of the
    driver but the transport: [connected_], [address_] and [connection]
    are as before, and so is [event_queue], so no message that arrives
    during a scan is kept for [listen].  It sends [GapDiscover] first and
    at most one command more. *)
Theorem discover_keeps_driver_state {U} (callback : DeviceCallback U)
    (u u' : U) (g g' : GattClient) (r : result unit) :
  discover callback u g = (r, u', g') →
  connected_ g' = connected_ g
  ∧ address_ g' = address_ g
  ∧ connection g' = connection g
  ∧ event_queue g' = event_queue g
  ∧ incoming (client g') `suffix_of` incoming (client g)
  ∧ (sent (client g') = sent (client g)
     ∨ sent (client g') = sent (client g) ++ [GapDiscover DiscoverGeneric]
     ∨ sent (client g') =
         sent (client g) ++ [GapDiscover DiscoverGeneric; GapEndProcedure]).
Proof.
  destruct g as [[inc snt w] cn ad c q]. unfold discover. run.
  destruct w as [|w]; simpl.
  { intros ?. simplify_eq. split_and!; try done. by left. }
  destruct (discover_loop callback u inc) as [[r0 u1] msgs] eqn:Hloop.
  apply discover_loop_suffix in Hloop.
  destruct r0 as [[]|e].
  - run. destruct w as [|w]; simpl.
    { intros ?. simplify_eq. split_and!; try done. right. by left. }
    destruct msgs as [|m msgs]; simpl.
    { intros ?. simplify_eq. split_and!; try done.
      right. right. by rewrite <-app_assoc. }
    assert (msgs `suffix_of` inc) by (etrans; [by apply suffix_cons_r | done]).
    destruct (decide _); intros ?; simplify_eq; simpl;
      (split_and!; try done; right; right; by rewrite <-app_assoc).
  - intros ?. simplify_eq. split_and!; try done. right. by left.
Qed.

Lemma discover_keeps_driver_state_witness :
  let g := with_event_queue [(0x30, [x07])]
             (fresh [GapScanResponseEvent (-48) myo [];
                     AttclientAttributeValueEvent 0x31 1 [x09]]) in
  let out := discover (until myo) [] g in
  connected_ out.2 = connected_ g
  ∧ address_ out.2 = address_ g
  ∧ connection out.2 = connection g
  ∧ event_queue out.2 = event_queue g
  ∧ incoming (client out.2) `suffix_of` incoming (client g)
  ∧ (sent (client out.2) = sent (client g)
     ∨ sent (client out.2) = sent (client g) ++ [GapDiscover DiscoverGeneric]
     ∨ sent (client out.2) =
         sent (client g) ++ [GapDiscover DiscoverGeneric; GapEndProcedure]).
Proof.
  intros g out.
  apply (discover_keeps_driver_state (until myo) [] out.1.2 g out.2 out.1.1).
  reflexivity.
Defined.
